(** * flexdev: directory diffing, build lifecycle, build slot and upload pool

    A shallow embedding of [lib/flexdev/flexdev.go], [server/build.go],
    [server/http.go] and of the upload loop of the command-line client
    ([doDeploy]), with the properties of each that the design document states.

    Go strings are byte sequences compared bytewise, which is what
    [String.compare] does on Rocq strings; slices are lists, and where a
    slice's backing array is written through (by [sort.Sort]) the array lives
    in an explicit store. Calls to the operating system, the Go toolchain and
    the libraries (the compiler run, process start and kill, YAML and JSON
    decoding, the clock, the file tree) take their outcome from an
    environment record and leave their effects in a trace. *)

From Stdlib Require Import String Ascii List Bool Arith Lia.
From Stdlib Require Import Sorted Permutation OrderedTypeEx.
Import ListNotations.
Local Open Scope string_scope.
Local Open Scope list_scope.

(** ** Package flexdev (lib/flexdev/flexdev.go) *)

Module flexdev.

Definition Version : string := "0.1".

(** [type state string] with its six constants. *)
Inductive state : Set :=
| StateCreated
| StateFetching
| StateBuilding
| StateBuilt
| StateRunning
| StateStopped.

Definition state_string (s : state) : string :=
  match s with
  | StateCreated => "created"
  | StateFetching => "fetching"
  | StateBuilding => "building"
  | StateBuilt => "built"
  | StateRunning => "running"
  | StateStopped => "stopped"
  end.

Definition state_eqb (a b : state) : bool :=
  match a, b with
  | StateCreated, StateCreated | StateFetching, StateFetching
  | StateBuilding, StateBuilding | StateBuilt, StateBuilt
  | StateRunning, StateRunning | StateStopped, StateStopped => true
  | _, _ => false
  end.

Record DirEntry : Set := mkEntry {
  Path : string;
  IsDir : bool;
  SHA1 : string
}.

Definition DirList : Set := list DirEntry.

(** Literals: a file with its hash, a directory (no hash). *)
Definition fileEntry (p h : string) : DirEntry := mkEntry p false h.
Definition dirEntry (p : string) : DirEntry := mkEntry p true "".

(** [func (d DirList) Less(i, j int) bool], on the two entries compared. *)
Definition Less (a b : DirEntry) : bool := (Path a <? Path b)%string.

(** [strings.HasPrefix(s, p)]. *)
Definition HasPrefix (s p : string) : bool := prefix p s.

(** [func (e DirEntry) InDir(dir DirEntry) bool]. *)
Definition InDir (e d : DirEntry) : bool :=
  IsDir d && HasPrefix (Path e ++ "/") (Path d).

(** The test the design document words: [d] is a directory and [e] lies
    strictly beneath it in the path tree, that is, the path of [e] goes on
    from the path of [d] with a separator. *)
Definition beneath (e d : DirEntry) : bool :=
  IsDir d && HasPrefix (Path e) (Path d ++ "/").

(** An entry as [ListDir] makes it: [SHA1] is set for files only. *)
Definition snapshot_entry (e : DirEntry) : Prop :=
  IsDir e = true -> SHA1 e = "".

(** [l[len(l)-1]], when [len(l) != 0]. *)
Fixpoint last_entry (l : DirList) : option DirEntry :=
  match l with
  | [] => None
  | [x] => Some x
  | _ :: r => last_entry r
  end.

(** The closure [appendEntry] of [Diff]. *)
Definition appendEntry (l : DirList) (e : DirEntry) : DirList :=
  match last_entry l with
  | None => l ++ [e]
  | Some d => if InDir e d then l else l ++ [e]
  end.

(** The closure [shift] of [Diff]: [d[0], d[1:]]; indexing an empty slice
    panics, which is [None] here. *)
Definition shift (d : DirList) : option (DirEntry * DirList) :=
  match d with
  | [] => None
  | x :: r => Some (x, r)
  end.

(** [sort.Sort] sees the list through [Len], [Less] and [Swap] only. It is
    modelled by insertion sort on [Less]; this one is stable, which Go's is not
    bound to be, so on a list with two entries of one path the model fixes one
    of the orders Go may produce. On lists of distinct paths every sort agrees
    with it. *)
Fixpoint insert_entry (e : DirEntry) (l : DirList) : DirList :=
  match l with
  | [] => [e]
  | x :: r => if Less x e then x :: insert_entry e r else e :: l
  end.

Fixpoint sort_Sort (l : DirList) : DirList :=
  match l with
  | [] => []
  | x :: r => insert_entry x (sort_Sort r)
  end.

(** Ascending by path, as [Less] orders: no entry is [Less] than the one
    before it. *)
Definition ascending : DirList -> Prop := Sorted (fun a b => Less b a = false).

(** Ascending with no path twice. *)
Definition strictly_ascending : DirList -> Prop := Sorted (fun a b => Less a b = true).

(** The variables of [Diff]'s main loop: the two read cursors and the two
    result lists. *)
Record DiffState : Set := mkDiff {
  ours : DirList;
  want : DirList;
  add : DirList;
  remove : DirList
}.

(** One turn of [for len(ours) != 0 && len(want) != 0 { ... }]: [None] when the
    loop condition is false. The patterns [o :: ours'] and [w :: want'] are the
    [shift]s of the body; its three tests ([==], [>], [<] on the front paths)
    are the three outcomes of the bytewise comparison ([compare_tests]). *)
Definition Diff_step (s : DiffState) : option DiffState :=
  match ours s, want s with
  | o :: ours', w :: want' =>
      match (Path o ?= Path w)%string with
      | Eq =>
          if negb (Bool.eqb (IsDir o) (IsDir w)) then
            (* Mismatch in file type. *)
            Some (mkDiff ours' want' (appendEntry (add s) w) (appendEntry (remove s) o))
          else if (SHA1 o =? SHA1 w)%string then
            (* Nothing to change. *)
            Some (mkDiff ours' want' (add s) (remove s))
          else
            (* Replace file. *)
            Some (mkDiff ours' want' (appendEntry (add s) w) (remove s))
      | Gt => Some (mkDiff (ours s) want' (appendEntry (add s) w) (remove s))
      | Lt => Some (mkDiff ours' (want s) (add s) (appendEntry (remove s) o))
      end
  | _, _ => None
  end.

(** The main loop, run for at most [fuel] turns. *)
Fixpoint Diff_loop (fuel : nat) (s : DiffState) : DiffState :=
  match fuel with
  | 0 => s
  | S n =>
      match Diff_step s with
      | None => s
      | Some s' => Diff_loop n s'
      end
  end.

(** Every turn consumes an entry of [ours] or of [want], so this many turns are
    enough ([Diff_loop_exits] below). *)
Definition Diff_fuel (s : DiffState) : nat := length (ours s) + length (want s).

(** [for len(want) != 0 { w, want = shift(want); add = appendEntry(add, w) }],
    and the same for [ours] and [remove]. *)
Definition drain (l rest : DirList) : DirList := fold_left appendEntry rest l.

(** [Diff] after its two [sort.Sort] calls. *)
Definition Diff_sorted (ours0 want0 : DirList) : DirList * DirList :=
  let s0 := mkDiff ours0 want0 [] [] in
  let s := Diff_loop (Diff_fuel s0) s0 in
  (drain (add s) (want s), drain (remove s) (ours s)).

(** [func (ours DirList) Diff(want DirList) (add, remove DirList)], as a
    function of the entries of its two arguments. *)
Definition Diff (ours0 want0 : DirList) : DirList * DirList :=
  Diff_sorted (sort_Sort ours0) (sort_Sort want0).

Record CreateBuildRequest : Set := mkCreateBuildRequest {
  Config : string;
  Files : DirList
}.

(** *** The backing arrays

    A [DirList] is a slice: the caller and [Diff] share its backing array, and
    [sort.Sort] swaps the array's elements in place. The store maps an array
    to its entries; [Diff] only ever writes to its arguments' arrays through
    the two sorts ([add] and [remove] are made afresh, [shift] re-slices). *)
Definition store : Set := nat -> DirList.

Definition store_set (m : store) (a : nat) (l : DirList) : store :=
  fun a' => if Nat.eqb a' a then l else m a'.

Definition sort_in_place (m : store) (a : nat) : store :=
  store_set m a (sort_Sort (m a)).

(** [Diff] on two slices of the store: the result lists and the store the
    caller is left with. [want] is sorted first, then [ours]. *)
Definition Diff_in_place (m : store) (ours_a want_a : nat) : DirList * DirList * store :=
  let m1 := sort_in_place m want_a in
  let m2 := sort_in_place m1 ours_a in
  (Diff_sorted (m2 ours_a) (m2 want_a), m2).

(** *** ListDir

    [filepath.Walk] calls the function [ListDir] gives it once for every file
    and directory it finds, with the path and the file information ([None]
    when it has none, as after a failed [Lstat]); the walk is the list of
    these calls in order. [filepath.Rel] and [FileSHA1] answer as given. *)
Section ListDir.

Variable filepath_Rel : string -> string -> string + string.
Variable FileSHA1 : string -> string + string.

(** The function literal of [ListDir]: the entry to append, or the error
    that ends the walk. The [err] the walk passes in is not looked at. *)
Definition walkFn (dirPath : string) (visit : string * option bool) : DirEntry + string :=
  let (path, fi) := visit in
  if negb (dirPath =? ".")%string && negb (HasPrefix path dirPath) then
    inr ("wanted " ++ path ++ " to be in dir " ++ dirPath)%string
  else
    match filepath_Rel dirPath path with
    | inr e => inr e
    | inl p =>
        match fi with
        | None => inr ("fi nil: " ++ path)%string
        | Some isDir =>
            if negb isDir then
              match FileSHA1 path with
              | inr e => inr e
              | inl sha => inl (mkEntry p isDir sha)
              end
            else inl (mkEntry p isDir "")
        end
    end.

(** The walk from a list [d] on: it stops at the first error. *)
Fixpoint walk (dirPath : string) (visits : list (string * option bool)) (d : DirList)
    : DirList * option string :=
  match visits with
  | [] => (d, None)
  | v :: rest =>
      match walkFn dirPath v with
      | inr e => (d, Some e)
      | inl entry => walk dirPath rest (d ++ [entry])
      end
  end.

(** [func ListDir(dirPath string) (DirList, error)]: the list is returned with
    the error, as far as it got. *)
Definition ListDir (dirPath : string) (visits : list (string * option bool))
    : DirList * option string :=
  walk dirPath visits [].

End ListDir.

(** *** Reading a result of [Diff] *)

(** [l1] is [l2] with some of its entries left out, the others in the order
    they have in [l2]. *)
Inductive subseq : DirList -> DirList -> Prop :=
| subseq_nil : subseq [] []
| subseq_skip x l1 l2 : subseq l1 l2 -> subseq l1 (x :: l2)
| subseq_take x l1 l2 : subseq l1 l2 -> subseq (x :: l1) (x :: l2).

(** The list has an entry with this path. *)
Definition has_path (l : DirList) (p : string) : bool :=
  existsb (fun x => (Path x =? p)%string) l.

(** All entries are files. *)
Definition flat (l : DirList) : Prop := Forall (fun e => IsDir e = false) l.

(** The two entries have the same path and the same hash. *)
Definition same_file (a b : DirEntry) : bool :=
  (Path a =? Path b)%string && (SHA1 a =? SHA1 b)%string.

(** No entry passes the test [InDir] against an entry before it in the
    list. *)
Definition collapsed (l : DirList) : Prop :=
  ForallOrdPairs (fun d e => InDir e d = false) l.

End flexdev.

(** ** Command server (server/build.go, server/http.go) *)

Module server.

Import flexdev.

Definition error : Set := string.

(** [os.Process] and [exec.Cmd], as far as the server reads and writes them. *)
Record Process : Set := mkProcess { Pid : nat }.

Record Cmd : Set := mkCmd {
  Args : list string;
  Dir : string;
  Env : list string;
  cmdProcess : option Process
}.

(** [type config struct]; the map [Env] is the list of its bindings in the
    order a [range] over it visits them. *)
Record config : Set := mkConfig {
  Runtime : string;
  VM : string;
  configEnv : list (string * string)
}.

(** [type Build struct]: the embedded [flexdev.Build] gives [ID] and [State];
    [cmd] and [config_] are pointers, [None] when nil; [output] is the bytes of
    the buffer. *)
Record Build : Set := mkBuild {
  ID : string;
  State : state;
  clientFiles : DirList;
  remove : list string;
  dir : string;
  cmd : option Cmd;
  output : string;
  addr : string;
  config_ : option config
}.

Definition set_State (b : Build) (s : state) : Build :=
  mkBuild (ID b) s (clientFiles b) (remove b) (dir b) (cmd b) (output b) (addr b) (config_ b).

Definition set_output (b : Build) (o : string) : Build :=
  mkBuild (ID b) (State b) (clientFiles b) (remove b) (dir b) (cmd b) o (addr b) (config_ b).

Definition set_addr (b : Build) (a : string) : Build :=
  mkBuild (ID b) (State b) (clientFiles b) (remove b) (dir b) (cmd b) (output b) a (config_ b).

Definition set_cmd (b : Build) (c : option Cmd) : Build :=
  mkBuild (ID b) (State b) (clientFiles b) (remove b) (dir b) c (output b) (addr b) (config_ b).

Definition set_clientFiles (b : Build) (l : DirList) : Build :=
  mkBuild (ID b) (State b) l (remove b) (dir b) (cmd b) (output b) (addr b) (config_ b).

(** [type Response struct]; [Build] points to the live record, of which the
    JSON shows [ID] and [State]. *)
Record Response : Set := mkResponse {
  Code : nat;
  Error : option error;
  RBuild : option Build;
  NeedFiles : list string;
  Message : string;
  ErrorJSON : string
}.

Definition response (code : nat) (err : option error) (msg : string) : Response :=
  mkResponse code err None [] msg "".

(** What a handler does to the world, in order: calls on the
    [http.ResponseWriter] ([WriteJSON r] is [w.Write] of the marshalled [r]),
    the hand-over to the reverse proxy, and the calls that change the file
    tree or a process. [log.Print] lines are left out. *)
Inductive event : Set :=
| WriteHeader (code : nat)
| HeaderSet (k v : string)
| Write (body : string)
| WriteJSON (r : Response)
| ReverseProxy (scheme host : string)
| MkdirAll (path : string)
| RemoveAll (path : string)
| WriteFile (path data : string)
| Run (c : Cmd)
| Listen
| Start_ (c : Cmd)
| Kill (p : Process).

Definition trace : Set := list event.

(** The answers of everything outside the three source files: library
    functions whose result the server only passes on, the process
    environment, the clock, and the outcome of each call that can fail
    ([None] or [inl] for success, the error otherwise). *)
Record World : Type := mkWorld {
  filepath_Join : string -> string -> string;
  filepath_Dir : string -> string;
  SplitHostPort : string -> (string * string) + error;
  sha1_hex : string -> string;
  yaml_Unmarshal : string -> config * option error;
  Sprint_config : option config -> string;
  os_Environ : list string;
  os_Getenv : string -> string;
  os_TempDir : string;
  UnixNano : string;
  os_MkdirAll : string -> option error;
  os_RemoveAll : string -> option error;
  ioutil_WriteFile : string -> string -> option error;
  ListDir : string -> DirList + error;
  cmd_Run : Cmd -> string * option error;
  net_Listen : string + error;
  cmd_Start : Cmd -> Process + error;
  Process_Kill : Process -> option error
}.

(** A method of [*Build] returns the record as it leaves it, its error and its
    effects, or panics (a nil pointer is dereferenced) part-way. *)
Inductive mresult : Set :=
| MReturn (b : Build) (err : option error) (t : trace)
| MPanic (b : Build) (t : trace).

(** A handler leaves the build slot (the global [build], [None] when nil) and
    its effects; a panic unwinds through the deferred unlock to net/http, which
    drops the connection without a response written by the handler. *)
Inductive hresult : Set :=
| HReturn (build : option Build) (t : trace)
| HPanic (build : option Build) (t : trace).

Section Server.

Variable W : World.

(** [func env(env []string, k, v string) []string]. *)
Definition env (e : list string) (k v : string) : list string :=
  filter (fun entry => negb (HasPrefix entry (k ++ "="))) e ++ [(k ++ "=" ++ v)%string].

(** The command of [GoBuild]: [go build -tags appenginevm -o a.out] in the
    build directory, with [GOPATH] extended by the directory's [_gopath]. *)
Definition go_build_cmd (b : Build) : Cmd :=
  mkCmd ["go"; "build"; "-tags"; "appenginevm"; "-o"; "a.out"]
        (dir b)
        (env (os_Environ W) "GOPATH"
             (os_Getenv W "GOPATH" ++ ":" ++ filepath_Join W (dir b) "_gopath"))
        None.

(** [func (b *Build) GoBuild() error], on a non-nil [b]. The compiler's
    combined output goes to [b.output]. *)
Definition GoBuild (b : Build) : mresult :=
  let b := set_State b StateBuilding in
  let c := go_build_cmd b in
  let (out, err) := cmd_Run W c in
  let b := set_output b (output b ++ out)%string in
  match err with
  | Some e => MReturn b (Some e) [Run c]
  | None => MReturn (set_State b StateBuilt) None [Run c]
  end.

(** [func (b *Build) Start() error], on a non-nil [b]. The loop over
    [build.config.Env] reads the global, which is [b] at the only call. *)
Definition Start (b : Build) : mresult :=
  match net_Listen W with
  | inr e => MReturn b (Some e) [Listen]
  | inl a =>
      let b := set_addr b a in
      match SplitHostPort W (addr b) with
      | inr e => MReturn b (Some e) [Listen]
      | inl (_, port) =>
          let environ := env (os_Environ W) "PORT" port in
          let environ := env environ "GOPATH" (filepath_Join W (dir b) "_gopath") in
          match config_ b with
          | None => MPanic b [Listen]
          | Some cfg =>
              let environ :=
                fold_left (fun e kv => env e (fst kv) (snd kv)) (configEnv cfg) environ in
              let c := mkCmd ["./a.out"] (dir b) environ None in
              match cmd_Start W c with
              | inr e => MReturn (set_cmd b (Some c)) (Some e) [Listen; Start_ c]
              | inl p =>
                  let c' := mkCmd (Args c) (Dir c) (Env c) (Some p) in
                  MReturn (set_State (set_cmd b (Some c')) StateRunning) None
                          [Listen; Start_ c]
              end
          end
      end
  end.

(** [func (b *Build) Stop() error], on a non-nil [b]. *)
Definition Stop (b : Build) : mresult :=
  if negb (state_eqb (State b) StateRunning) then
    MReturn b (Some "Tried to stop binary when not running") []
  else
    match cmd b with
    | None => MPanic b []
    | Some c =>
        match cmdProcess c with
        | None =>
            MReturn (set_State b StateStopped)
                    (Some "Tried to stop binary when process not running") []
        | Some p =>
            match Process_Kill W p with
            | Some e => MReturn b (Some e) [Kill p]
            | None => MReturn (set_State b StateStopped) None [Kill p]
            end
        end
    end.

(** [func (b *Build) filesNeeded() (need, remove []string, err error)]. The
    diff sorts the array of [b.clientFiles] in place, so the record comes back
    with it sorted (the listing of the directory is a fresh slice). *)
Definition filesNeeded (b : Build) : Build * ((list string * list string) + error) :=
  match ListDir W (dir b) with
  | inr e => (b, inr e)
  | inl ours0 =>
      let (add_, del) := Diff ours0 (clientFiles b) in
      (set_clientFiles b (sort_Sort (clientFiles b)),
       inl (map Path add_, map Path del))
  end.

(** [func (r Response) WriteTo(w http.ResponseWriter)]. [json.Marshal] cannot
    fail on the fields of a [Response], so that branch is left out; the body
    written is the response with [ErrorJSON] filled in. *)
Definition WriteTo (r : Response) : trace :=
  let r' :=
    match Error r with
    | Some e => mkResponse (Code r) (Error r) (RBuild r) (NeedFiles r) (Message r) e
    | None => r
    end in
  (if negb (Nat.eqb (Code r) 0) then [WriteHeader (Code r)]
   else match Error r with
        | Some _ => [WriteHeader 500]
        | None => []
        end)
  ++ [WriteJSON r'].

Definition StatusBadRequest : nat := 400.
Definition StatusServiceUnavailable : nat := 503.

Definition packageDir : string := filepath_Join W (os_TempDir W) "flexdev-server".

(** [func proxyHandler(w, r)], under the read lock. The calls on [w] are in
    the order of the source: in the two refusals the status line is written
    before the content type is set. *)
Definition proxyHandler (build : option Build) : trace :=
  match build with
  | None =>
      [WriteHeader StatusServiceUnavailable;
       HeaderSet "Content-Type" "text/plain; charset=utf-8";
       Write "No app to run. Use `flexdev deploy` to deploy the application code."]
  | Some b =>
      if negb (state_eqb (State b) StateRunning) then
        [WriteHeader StatusServiceUnavailable;
         HeaderSet "Content-Type" "text/plain; charset=utf-8";
         Write ("state: " ++ state_string (State b) ++ String "010" "");
         Write (output b)]
      else
        [HeaderSet "X-FlexDev" Version;
         ReverseProxy "http" (addr b)]
  end.

(** What [json.NewDecoder(r.Body).Decode(&buildReq)] made of the body: a
    request, [io.EOF] (no input, [buildReq] keeps its zero value) or another
    error. *)
Inductive decoded : Set :=
| Decoded (r : CreateBuildRequest)
| DecodeEOF
| DecodeError (e : error).

(** The loop of [createBuildHandler] over [remove]. *)
Fixpoint removeFiles (d : string) (fs : list string) : trace * option error :=
  match fs with
  | [] => ([], None)
  | f :: rest =>
      let p := filepath_Join W d f in
      match os_RemoveAll W p with
      | Some e => ([RemoveAll p], Some e)
      | None =>
          let (t, r) := removeFiles d rest in
          (RemoveAll p :: t, r)
      end
  end.

(** [createBuildHandler] from [var config config] on; [t] is what the handler
    has done so far. After a YAML error the response is written and the
    handler goes on. *)
Definition createBuild_from_config (build : option Build) (t : trace)
    (buildReq : CreateBuildRequest) : hresult :=
  let (cfg, yerr) := yaml_Unmarshal W (Config buildReq) in
  let t :=
    match yerr with
    | Some e =>
        t ++ WriteTo (response StatusBadRequest
                        (Some ("Could not parse yaml config: " ++ e)%string) "")
    | None => t
    end in
  let t := t ++ [MkdirAll packageDir] in
  match os_MkdirAll W packageDir with
  | Some e => HReturn build (t ++ WriteTo (response 0 (Some e) ""))
  | None =>
      let b := mkBuild (UnixNano W) StateCreated (Files buildReq) [] packageDir
                       None "" "" (Some cfg) in
      match filesNeeded b with
      | (b, inr e) =>
          HReturn (Some b)
            (t ++ WriteTo (response 0 (Some ("Could not get needed files: " ++ e)%string) ""))
      | (b, inl (need, remove_)) =>
          match removeFiles (dir b) remove_ with
          | (tr, Some e) => HReturn (Some b) (t ++ tr ++ WriteTo (response 0 (Some e) ""))
          | (tr, None) =>
              HReturn (Some b)
                (t ++ tr ++ WriteTo (mkResponse 0 None (Some b) need "Build created." ""))
          end
      end
  end.

(** [createBuildHandler] from the decoding of the request on. *)
Definition createBuild_from_body (build : option Build) (t : trace) (body : decoded)
    : hresult :=
  match body with
  | DecodeError e =>
      HReturn build
        (t ++ WriteTo (response 0 (Some ("Could not read build req: " ++ e)%string) ""))
  | _ =>
      let buildReq :=
        match body with
        | Decoded r => r
        | _ => mkCreateBuildRequest "" []
        end in
      if Nat.eqb (String.length (Config buildReq)) 0 then
        HReturn build
          (t ++ WriteTo (response StatusBadRequest (Some "Missing config file.") ""))
      else if Nat.eqb (List.length (Files buildReq)) 0 then
        HReturn build
          (t ++ WriteTo (response StatusBadRequest (Some "Missing dir list.") ""))
      else createBuild_from_config build t buildReq
  end.

(** [func createBuildHandler(w, r)], under the write lock. *)
Definition createBuildHandler (build : option Build) (body : decoded) : hresult :=
  match build with
  | Some b =>
      if state_eqb (State b) StateRunning then
        match Stop b with
        | MPanic b' t => HPanic (Some b') t
        | MReturn b' (Some e) t =>
            HReturn (Some b')
              (t ++ WriteTo (response 0
                               (Some ("Could not stop existing binary: " ++ e)%string) ""))
        | MReturn b' None t => createBuild_from_body (Some b') t body
        end
      else createBuild_from_body build [] body
  | None => createBuild_from_body build [] body
  end.

(** The form values and the body of a put request. *)
Record PutRequest : Set := mkPutRequest {
  form_id : string;
  form_filename : string;
  form_sha1 : string;
  put_body : string + error
}.

Definition bad_request (msg : string) : trace :=
  WriteTo (response StatusBadRequest (Some msg) "").

(** [func putFileHandler(w, r)], under the read lock. [build.ID] is read
    without a test of [build]. *)
Definition putFileHandler (build : option Build) (r : PutRequest) : hresult :=
  let buildID := form_id r in
  let dest := form_filename r in
  let hash := form_sha1 r in
  if (buildID =? "")%string then HReturn build (bad_request "Missing build ID.")
  else
    match build with
    | None => HPanic build []
    | Some bd =>
        if negb (buildID =? ID bd)%string then
          HReturn build (bad_request "Build ID does not match.")
        else if (dest =? "")%string then
          HReturn build (bad_request "Missing destination filename.")
        else if (hash =? "")%string then
          HReturn build (bad_request "Missing hash.")
        else
          match put_body r with
          | inr e => HReturn build (WriteTo (response 0 (Some e) ""))
          | inl b =>
              if negb (sha1_hex W b =? hash)%string then
                HReturn build (bad_request "sum did not match")
              else
                let target := filepath_Join W (dir bd) dest in
                match os_MkdirAll W (filepath_Dir W target) with
                | Some e =>
                    HReturn build
                      ([MkdirAll (filepath_Dir W target)]
                       ++ WriteTo (response 0
                            (Some ("Could not mkdir -p " ++ dest ++ ": " ++ e)%string) ""))
                | None =>
                    match ioutil_WriteFile W target b with
                    | Some e =>
                        HReturn build
                          ([MkdirAll (filepath_Dir W target); WriteFile target b]
                           ++ WriteTo (response 0
                                (Some ("Could not write file to " ++ dest ++ ": " ++ e)%string)
                                ""))
                    | None =>
                        HReturn build
                          ([MkdirAll (filepath_Dir W target); WriteFile target b]
                           ++ WriteTo (response 0 None ("Wrote " ++ dest)))
                    end
                end
          end
    end.

(** [func startBuildHandler(w, r)], under the write lock. [build.GoBuild()]
    is called without a test of [build]: on a nil [build] the first statement
    of [GoBuild], [b.State = flexdev.StateBuilding], dereferences nil. *)
Definition startBuildHandler (build : option Build) : hresult :=
  match build with
  | None => HPanic None []
  | Some b =>
      match GoBuild b with
      | MPanic b t => HPanic (Some b) t
      | MReturn b (Some e) t =>
          HReturn (Some b)
            (t ++ WriteTo (mkResponse 0 (Some ("Build failed: " ++ e)%string) None []
                             (output b) ""))
      | MReturn b None t =>
          match Start b with
          | MPanic b t' => HPanic (Some b) (t ++ t')
          | MReturn b (Some e) t' =>
              HReturn (Some b)
                (t ++ t' ++ WriteTo (response 0
                                       (Some ("Could not run binary: " ++ e)%string) ""))
          | MReturn b None t' =>
              HReturn (Some b) (t ++ t' ++ WriteTo (response 0 None "App is running."))
          end
      end
  end.

(** [func statusHandler(w, r)], under the write lock. *)
Definition statusHandler (build : option Build) : hresult :=
  let nl := String "010" "" in
  match build with
  | None => HReturn build (WriteTo (response 0 None ("build=nil" ++ nl)))
  | Some b =>
      HReturn build
        (WriteTo (response 0 None
           (ID b ++ nl ++ state_string (State b) ++ nl ++ addr b ++ nl
            ++ Sprint_config W (config_ b) ++ nl ++ output b ++ nl)))
  end.

(** A control request, and the handler [adminMux] routes it to (the checks of
    [adminHandler] on the transport and the caller's identity come before and
    are not modelled). *)
Inductive request : Set :=
| Create (body : decoded)
| Put (r : PutRequest)
| StartBuild
| Status.

Definition handle (build : option Build) (r : request) : hresult :=
  match r with
  | Create body => createBuildHandler build body
  | Put p => putFileHandler build p
  | StartBuild => startBuildHandler build
  | Status => statusHandler build
  end.

(** [func checkAuth(ctx, h) error]; [oauth] is what [user.CurrentOAuth] gives
    for the request: whether the user is an admin, or an error. The header
    value passed in is not looked at. *)
Definition checkAuth (oauth : bool + error) : option error :=
  if negb (os_Getenv W "FLEXDEV_NOAUTH" =? "")%string then None
  else
    match oauth with
    | inr e => Some e
    | inl admin => if admin then None else Some "Must be an admin."
    end.

(** A request on [/_flexdev/build/]: the two headers [adminHandler] reads and
    the control request behind them. *)
Record AdminRequest : Set := mkAdminRequest {
  X_Appengine_Https : string;
  Authorization : string;
  control : request
}.

(** What a handler result has done, with [t] done before it. *)
Definition after (t : trace) (r : hresult) : hresult :=
  match r with
  | HReturn build t' => HReturn build (t ++ t')
  | HPanic build t' => HPanic build (t ++ t')
  end.

(** [func adminHandler(w, r)]. *)
Definition adminHandler (build : option Build) (oauth : bool + error) (r : AdminRequest)
    : hresult :=
  let t := [HeaderSet "X-FlexDev" Version] in
  let h := X_Appengine_Https r in
  if negb (h =? "")%string && negb (h =? "on")%string then
    HReturn build
      (t ++ WriteTo (response StatusBadRequest (Some "This endpoint only works via HTTPS.") ""))
  else if (Authorization r =? "")%string then
    HReturn build (t ++ WriteTo (response 401 (Some "Missing auth token.") ""))
  else
    match checkAuth oauth with
    | Some e =>
        HReturn build
          (t ++ WriteTo (response 403 (Some ("Could not verify your auth: " ++ e)%string) ""))
    | None => after t (handle build (control r))
    end.

End Server.

(** *** Reading a trace *)

(** The event changes the file tree or a process. *)
Definition acts (e : event) : bool :=
  match e with
  | MkdirAll _ | RemoveAll _ | WriteFile _ _ | Run _ | Listen | Start_ _ | Kill _ => true
  | WriteHeader _ | HeaderSet _ _ | Write _ | WriteJSON _ | ReverseProxy _ _ => false
  end.

(** The slot a handler leaves, and what it did. *)
Definition slot_of (r : hresult) : option Build :=
  match r with HReturn b _ | HPanic b _ => b end.

Definition trace_of (r : hresult) : trace :=
  match r with HReturn _ t | HPanic _ t => t end.

(** The build slot after a sequence of control requests, each handled in the
    world it meets; a handler that panics leaves the slot as it had it. *)
Fixpoint serve (reqs : list (World * request)) (build : option Build) : option Build :=
  match reqs with
  | [] => build
  | (W, r) :: rest => serve rest (slot_of (handle W build r))
  end.

(** A record the methods of [*Build] cannot trip over: its config is set, and
    if it is Running its command has a process. *)
Definition sound_record (b : Build) : Prop :=
  config_ b <> None /\
  State b <> StateFetching /\
  (State b = StateRunning -> exists c p, cmd b = Some c /\ cmdProcess c = Some p).

Definition sound_slot (build : option Build) : Prop :=
  forall b, build = Some b -> sound_record b.

(** The request was handed to the reverse proxy. *)
Definition forwards (t : trace) : bool :=
  existsb (fun e => match e with ReverseProxy _ _ => true | _ => false end) t.

(** The service-unavailable answer of [proxyHandler] that carries the state
    and the log of [b] as plain text. *)
Definition unavailable_with_state_and_log (b : Build) : trace :=
  [WriteHeader 503;
   HeaderSet "Content-Type" "text/plain; charset=utf-8";
   Write ("state: " ++ state_string (State b) ++ String "010" "");
   Write (output b)].

(** The [RemoveAll] calls of [createBuildHandler] when they all succeed. *)
Definition removals (W : World) (d : string) (fs : list string) : trace :=
  map (fun f => RemoveAll (filepath_Join W d f)) fs.

(** *** A world to run the handlers in

    Paths are joined with a slash, the temporary directory is [/tmp], the
    clock reads [now]; the compiler run, the YAML decoding, the listing of the
    build directory and the kill are as given; everything else succeeds. *)
Definition testWorld (run : string * option error) (yaml : config * option error)
    (listing : DirList + error) (kill : option error) (now : string) : World :=
  {| filepath_Join := fun a b => (a ++ "/" ++ b)%string;
     filepath_Dir := fun p => p;
     SplitHostPort := fun a => inl ("", a);
     sha1_hex := fun b => b;
     yaml_Unmarshal := fun _ => yaml;
     Sprint_config := fun _ => "";
     os_Environ := ["PATH=/bin"; "GOPATH=/go"];
     os_Getenv := fun k => if (k =? "GOPATH")%string then "/go" else "";
     os_TempDir := "/tmp";
     UnixNano := now;
     os_MkdirAll := fun _ => None;
     os_RemoveAll := fun _ => None;
     ioutil_WriteFile := fun _ _ => None;
     ListDir := fun _ => listing;
     cmd_Run := fun _ => run;
     net_Listen := inl "[::]:8081";
     cmd_Start := fun _ => inl (mkProcess 1);
     Process_Kill := fun _ => kill |}.

Definition emptyConfig : config := mkConfig "" "" [].

(** A record as [createBuildHandler] allocates it, in state [s]. *)
Definition testBuild (s : state) : Build :=
  mkBuild "1462603439818096410" s [] [] "/tmp/flexdev-server" None "" "" (Some emptyConfig).

End server.

(** ** Command flexdev: the upload pool of doDeploy

    [doDeploy] starts fifteen goroutines that receive paths from the
    unbuffered channel [sendFile], and then pushes the files to send, one
    [wg.Add(1)] and one send per file; it waits on the wait group and returns
    [sendErr] if it is set. The goroutines and the pushing loop are
    interleaved by the scheduler: a state of the pool holds the point each of
    them has reached, and a step moves one of them (a send on the channel moves
    the sender and the receiver together). The two critical sections of
    [errMu] are one read and one write of [sendErr], each a step. *)

Module client.

Definition error : Set := string.

(** Where a worker goroutine is in its loop. *)
Inductive worker : Set :=
| AtCheck                               (* before the read of sendErr under errMu *)
| AtReceive (skip : bool)               (* in path := <-sendFile *)
| AtPut (path : string)                 (* before putFile *)
| AtRecord (path : string) (e : error)  (* putFile failed: before the write of sendErr *)
| AtDone.                               (* before wg.Done() *)

(** Where [doDeploy] is: between two files of its loop (with the files still
    to push), in the send of a file, in [wg.Wait()], or returned. *)
Inductive producer : Set :=
| Pushing (files : list string)
| Sending (path : string) (rest : list string)
| Waiting
| Returned (err : option error).

(** What has happened, in order: worker [i] received a path (and whether it
    then skips it), called [putFile] on a path, set [sendErr]. *)
Inductive occurrence : Set :=
| Dequeued (i : nat) (path : string) (skip : bool)
| Transferred (i : nat) (path : string)
| Recorded (i : nat) (e : error).

Record pool : Set := mkPool {
  main : producer;
  workers : list worker;
  sendErr : option error;
  wg : nat;
  log : list occurrence
}.

(** The scheduler's choice: worker [i] goes on by itself, the send of the
    producer meets the receive of worker [i], or the producer goes on. *)
Inductive label : Set :=
| Worker (i : nat)
| Send (i : nat)
| Main.

Fixpoint set_nth {A : Type} (i : nat) (x : A) (l : list A) : list A :=
  match l, i with
  | [], _ => []
  | _ :: r, 0 => x :: r
  | y :: r, S j => y :: set_nth j x r
  end.

Definition set_worker (s : pool) (i : nat) (w : worker) : pool :=
  mkPool (main s) (set_nth i w (workers s)) (sendErr s) (wg s) (log s).

Definition set_main (s : pool) (m : producer) : pool :=
  mkPool m (workers s) (sendErr s) (wg s) (log s).

Definition set_sendErr (s : pool) (e : option error) : pool :=
  mkPool (main s) (workers s) e (wg s) (log s).

Definition set_wg (s : pool) (n : nat) : pool :=
  mkPool (main s) (workers s) (sendErr s) n (log s).

Definition logged (s : pool) (o : occurrence) : pool :=
  mkPool (main s) (workers s) (sendErr s) (wg s) (log s ++ [o]).

Definition is_set (e : option error) : bool :=
  match e with Some _ => true | None => false end.

(** [fmt.Errorf("Could not send %s: %v", path, err)], the value given to
    [sendErr], and [fmt.Errorf("Could not send file: %v", sendErr)], the
    error returned. *)
Definition send_error (path : string) (e : error) : error :=
  ("Could not send " ++ path ++ ": " ++ e)%string.

Definition deploy_error (e : error) : error :=
  ("Could not send file: " ++ e)%string.

(** The number of workers of [doDeploy]. *)
Definition poolSize : nat := 15.

(** All workers at the top of their loop, nothing pushed yet. *)
Definition start (n : nat) (files : list string) : pool :=
  mkPool (Pushing files) (repeat AtCheck n) None 0 [].

Section Pool.

(** The outcome of [putFile] for a path, and the error (of [os.Stat] or of
    the walk of a directory) that ends the pushing loop early, if any: the
    files of the pool are those pushed before it. *)
Variable putFile : string -> option error.
Variable walkErr : option error.

(** One step of worker [i] by itself. [wg.Done()] on a zero counter panics;
    this is no step here, and [pool_progress] shows that it is never the only
    thing left to do. *)
Definition step_worker (i : nat) (s : pool) : option pool :=
  match nth_error (workers s) i with
  | Some AtCheck => Some (set_worker s i (AtReceive (is_set (sendErr s))))
  | Some (AtPut path) =>
      let s := logged s (Transferred i path) in
      match putFile path with
      | Some e => Some (set_worker s i (AtRecord path e))
      | None => Some (set_worker s i AtDone)
      end
  | Some (AtRecord path e) =>
      let e' := send_error path e in
      Some (set_worker (logged (set_sendErr s (Some e')) (Recorded i e')) i AtDone)
  | Some AtDone =>
      match wg s with
      | S n => Some (set_worker (set_wg s n) i AtCheck)
      | 0 => None
      end
  | Some (AtReceive _) | None => None
  end.

(** The send [sendFile <- path] together with the receive of worker [i]. *)
Definition step_send (i : nat) (s : pool) : option pool :=
  match main s, nth_error (workers s) i with
  | Sending path rest, Some (AtReceive skip) =>
      let s := logged (set_main s (Pushing rest)) (Dequeued i path skip) in
      Some (set_worker s i (if skip then AtDone else AtPut path))
  | _, _ => None
  end.

(** One step of [doDeploy] by itself: [wg.Add(1)] for the next file; the end
    of the loop; the return from [wg.Wait()] on a zero counter with the test
    of [sendErr]. *)
Definition step_main (s : pool) : option pool :=
  match main s with
  | Pushing (path :: rest) => Some (set_wg (set_main s (Sending path rest)) (S (wg s)))
  | Pushing [] =>
      match walkErr with
      | Some e => Some (set_main s (Returned (Some e)))
      | None => Some (set_main s Waiting)
      end
  | Waiting =>
      match wg s with
      | 0 =>
          Some (set_main s (Returned (option_map deploy_error (sendErr s))))
      | S _ => None
      end
  | Sending _ _ | Returned _ => None
  end.

Definition step (l : label) (s : pool) : option pool :=
  match l with
  | Worker i => step_worker i s
  | Send i => step_send i s
  | Main => step_main s
  end.

(** The pool after a schedule, if every step of it is possible. *)
Fixpoint run (sched : list label) (s : pool) : option pool :=
  match sched with
  | [] => Some s
  | l :: rest =>
      match step l s with
      | Some s' => run rest s'
      | None => None
      end
  end.

(** The states the pool of [n] workers can be in when [files] are pushed. *)
Inductive reachable (n : nat) (files : list string) : pool -> Prop :=
| reach_start : reachable n files (start n files)
| reach_step s l s' :
    reachable n files s -> step l s = Some s' -> reachable n files s'.

End Pool.

(** *** Reading the log *)

(** An error is recorded somewhere in the list. *)
Definition has_recorded (l : list occurrence) : bool :=
  existsb (fun o => match o with Recorded _ _ => true | _ => false end) l.

(** The error recorded last. *)
Fixpoint last_recorded (l : list occurrence) : option error :=
  match l with
  | [] => None
  | Recorded _ e :: r =>
      match last_recorded r with
      | Some e' => Some e'
      | None => Some e
      end
  | _ :: r => last_recorded r
  end.

(** The paths received by the workers, in order. *)
Fixpoint dequeued_paths (l : list occurrence) : list string :=
  match l with
  | [] => []
  | Dequeued _ path _ :: r => path :: dequeued_paths r
  | _ :: r => dequeued_paths r
  end.

(** Every item that was skipped was received after an error had been
    recorded ([seen]: an error is recorded before the list). *)
Fixpoint skips_follow_error (seen : bool) (l : list occurrence) : bool :=
  match l with
  | [] => true
  | Recorded _ _ :: r => skips_follow_error true r
  | Dequeued _ _ true :: r => seen && skips_follow_error seen r
  | _ :: r => skips_follow_error seen r
  end.


(** *** Counting the workers, and how far the pool is from its end *)

Definition total (f : worker -> nat) (ws : list worker) : nat :=
  list_sum (map f ws).

(** Holds an item counted in the wait group. *)
Definition in_flight (w : worker) : nat :=
  match w with
  | AtPut _ | AtRecord _ _ | AtDone => 1
  | AtCheck | AtReceive _ => 0
  end.


(** Waits for an item that it will skip. *)
Definition aware (w : worker) : nat :=
  match w with
  | AtReceive true => 1
  | _ => 0
  end.

Definition sending (m : producer) : nat :=
  match m with Sending _ _ => 1 | _ => 0 end.

Definition pending (m : producer) : list string :=
  match m with
  | Pushing files => files
  | Sending path rest => path :: rest
  | Waiting | Returned _ => []
  end.




(** The paths [putFile] was called on, in order. *)
Fixpoint transferred_paths (l : list occurrence) : list string :=
  match l with
  | [] => []
  | Transferred _ path :: r => path :: transferred_paths r
  | _ :: r => transferred_paths r
  end.

(** The paths received by a worker that did not skip them, in order. *)
Fixpoint unskipped_paths (l : list occurrence) : list string :=
  match l with
  | [] => []
  | Dequeued _ path false :: r => path :: unskipped_paths r
  | _ :: r => unskipped_paths r
  end.

(** The file a worker has received and not yet passed to [putFile]. *)
Definition held (w : worker) : list string :=
  match w with
  | AtPut path => [path]
  | _ => []
  end.

(** Has a failure to record. *)
Definition recording (w : worker) : nat :=
  match w with
  | AtRecord _ _ => 1
  | _ => 0
  end.

End client.

(** * Properties *)

(** ** The tree differ *)

Section DiffFacts.

Import flexdev.

Lemma compare_refl (s : string) : (s ?= s)%string = Eq.
Proof. induction s as [|c s IH]; simpl; [reflexivity|]. unfold Ascii.compare. now rewrite BinNat.N.compare_refl. Qed.

Lemma ltb_asym (s t : string) : (s <? t)%string = true -> (t <? s)%string = false.
Proof.
  unfold String.ltb. rewrite (String.compare_antisym t s).
  destruct (s ?= t)%string; simpl; congruence.
Qed.

(** Go's [==], [<] and [>] on strings, against [String.compare]. *)
Lemma compare_tests (s t : string) :
  ((s =? t)%string = true <-> (s ?= t)%string = Eq) /\
  ((s <? t)%string = true <-> (s ?= t)%string = Lt) /\
  ((t <? s)%string = true <-> (s ?= t)%string = Gt).
Proof.
  split; [|split].
  - rewrite String.eqb_eq. split; [intros ->; apply compare_refl|apply String.compare_eq_iff].
  - unfold String.ltb. destruct (s ?= t)%string; split; congruence.
  - unfold String.ltb. rewrite (String.compare_antisym s t).
    destruct (t ?= s)%string; simpl; split; congruence.
Qed.

Lemma Less_asym (a b : DirEntry) : Less a b = true -> Less b a = false.
Proof. apply ltb_asym. Qed.

(** The tests of the Go tests file, on the model. *)
Example TestTwoFiles :
  Diff [fileEntry "a" ""] [fileEntry "b" ""] = ([fileEntry "b" ""], [fileEntry "a" ""]).
Proof. reflexivity. Qed.

Example TestOnlyWant :
  Diff [] [fileEntry "a" ""; fileEntry "c" ""; dirEntry "b"; fileEntry "b/a" ""]
  = ([fileEntry "a" ""; dirEntry "b"; fileEntry "c" ""], []).
Proof. reflexivity. Qed.

Example TestFileNowDir :
  Diff [fileEntry "a" ""] [dirEntry "a"; fileEntry "a/b" ""]
  = ([dirEntry "a"], [fileEntry "a" ""]).
Proof. reflexivity. Qed.

Example TestMismatchSHA :
  Diff [fileEntry "a" "a"] [fileEntry "a" "b"] = ([fileEntry "a" "b"], []).
Proof. reflexivity. Qed.

Example TestRemoveDirs :
  Diff [dirEntry "a"; fileEntry "a/a" ""; fileEntry "a/b" ""] [] = ([], [dirEntry "a"]).
Proof. reflexivity. Qed.

(** *** The loop terminates within its fuel *)

Lemma Diff_step_fuel (s s' : DiffState) :
  Diff_step s = Some s' -> Diff_fuel s' < Diff_fuel s.
Proof.
  unfold Diff_step, Diff_fuel.
  destruct (ours s) as [|o ours'] eqn:Eo; [discriminate|].
  destruct (want s) as [|w want'] eqn:Ew; [discriminate|].
  destruct (Path o ?= Path w)%string;
    repeat match goal with |- context [if ?c then _ else _] => destruct c end;
    intros [= <-]; simpl; rewrite ?Eo, ?Ew; simpl; lia.
Qed.

Lemma Diff_step_None (s : DiffState) :
  Diff_step s = None <-> ours s = [] \/ want s = [].
Proof.
  unfold Diff_step.
  destruct (ours s) as [|o ours']; [intuition|].
  destruct (want s) as [|w want']; [intuition|].
  destruct (Path o ?= Path w)%string;
    repeat match goal with |- context [if ?c then _ else _] => destruct c end;
    split; try discriminate; intros [H|H]; discriminate.
Qed.

(** With [Diff_fuel s] turns or more the loop leaves through its condition:
    one of the cursors is exhausted. *)
Lemma Diff_loop_exits (fuel : nat) (s : DiffState) :
  Diff_fuel s <= fuel -> Diff_step (Diff_loop fuel s) = None.
Proof.
  revert s. induction fuel as [|n IH]; intros s Hf; simpl.
  - apply Diff_step_None. unfold Diff_fuel in Hf.
    destruct (ours s); [now left|simpl in Hf; lia].
  - destruct (Diff_step s) as [s'|] eqn:E; [|exact E].
    apply IH. apply Diff_step_fuel in E. lia.
Qed.

(** The loop of [Diff] ends: run for [Diff_fuel s] turns or any number more,
    it stops with one of the cursors exhausted. *)
Lemma Diff_loop_terminates (s : DiffState) (k : nat) :
  let s' := Diff_loop (Diff_fuel s + k) s in
  Diff_step s' = None /\ (ours s' = [] \/ want s' = []).
Proof.
  cbv zeta. assert (H : Diff_step (Diff_loop (Diff_fuel s + k) s) = None)
    by (apply Diff_loop_exits; lia).
  split; [exact H|]. now apply Diff_step_None.
Qed.

(** Any two amounts of fuel from [Diff_fuel s] up give the same result. *)
Lemma Diff_loop_fuel (fuel1 fuel2 : nat) (s : DiffState) :
  Diff_fuel s <= fuel1 -> Diff_fuel s <= fuel2 ->
  Diff_loop fuel1 s = Diff_loop fuel2 s.
Proof.
  revert fuel2 s. induction fuel1 as [|n IH]; intros [|m] s H1 H2; simpl;
    try reflexivity;
    destruct (Diff_step s) as [s'|] eqn:E; try reflexivity;
    pose proof (Diff_step_fuel _ _ E); try lia.
  apply IH; lia.
Qed.

(** *** Equal lists *)

Lemma Diff_step_same (x : DirEntry) (l a r : DirList) :
  Diff_step (mkDiff (x :: l) (x :: l) a r) = Some (mkDiff l l a r).
Proof.
  unfold Diff_step; simpl.
  now rewrite compare_refl, Bool.eqb_reflx, String.eqb_refl.
Qed.

Lemma Diff_loop_same (l a r : DirList) (fuel : nat) :
  length l <= fuel -> Diff_loop fuel (mkDiff l l a r) = mkDiff [] [] a r.
Proof.
  revert fuel. induction l as [|x l IH]; intros fuel Hf.
  - destruct fuel; reflexivity.
  - destruct fuel as [|n]; [simpl in Hf; lia|].
    cbn [Diff_loop]. rewrite Diff_step_same. apply IH. simpl in Hf. lia.
Qed.

Lemma Diff_sorted_same (l : DirList) : Diff_sorted l l = ([], []).
Proof.
  unfold Diff_sorted, Diff_fuel; simpl.
  rewrite Diff_loop_same by lia. reflexivity.
Qed.

(** C3: for every snapshot [A], [Diff A A] has an empty add list and an empty
    remove list (whatever the order of [A], and whether or not its paths are
    distinct). *)
Theorem Diff_same_empty (A : DirList) : Diff A A = ([], []).
Proof. unfold Diff. apply Diff_sorted_same. Qed.

(** *** One turn of the loop on equal paths *)

(** The case analysis of a turn on fronts of equal path: both cursors advance,
    and
    - with different directory flags, the "have" entry is handed to
      [appendEntry] for [remove] and the "want" entry for [add];
    - with two files of different hashes, the "want" entry is handed to
      [appendEntry] for [add], and [remove] is left as it is;
    - with two directories, or two files of equal hashes, both lists are left
      as they are.
    Whether the entry handed over ends up in the list is up to [appendEntry].
    The entries are those of snapshots: a directory has no hash. *)
Lemma Diff_step_equal_paths_cases (s : DiffState) (o w : DirEntry) (ours' want' : DirList) :
  ours s = o :: ours' -> want s = w :: want' ->
  snapshot_entry o -> snapshot_entry w ->
  Path o = Path w ->
  exists a r,
    Diff_step s = Some (mkDiff ours' want' a r) /\
    (IsDir o <> IsDir w ->
       a = appendEntry (add s) w /\ r = appendEntry (remove s) o) /\
    (IsDir o = false -> IsDir w = false -> SHA1 o <> SHA1 w ->
       a = appendEntry (add s) w /\ r = remove s) /\
    (IsDir o = false -> IsDir w = false -> SHA1 o = SHA1 w ->
       a = add s /\ r = remove s) /\
    (IsDir o = true -> IsDir w = true ->
       a = add s /\ r = remove s).
Proof.
  intros Eo Ew So Sw Hp. unfold Diff_step. rewrite Eo, Ew, Hp, compare_refl.
  destruct (IsDir o) eqn:Do, (IsDir w) eqn:Dw; simpl.
  - rewrite (So Do), (Sw Dw). simpl.
    do 2 eexists; split; [reflexivity|]. repeat split; congruence.
  - do 2 eexists; split; [reflexivity|]. repeat split; congruence.
  - do 2 eexists; split; [reflexivity|]. repeat split; congruence.
  - destruct (String.eqb_spec (SHA1 o) (SHA1 w)) as [E|E];
      do 2 eexists; (split; [reflexivity|]); repeat split; congruence.
Qed.

(** *** Directory collapsing *)

Lemma prefix_nil (s : string) : prefix "" s = true.
Proof. now destruct s. Qed.

Lemma prefix_app_r (p s t : string) :
  prefix p s = true -> prefix p (s ++ t) = true.
Proof.
  revert s. induction p as [|c p IH]; intros s; [intros _; apply prefix_nil|].
  destruct s as [|c' s]; simpl; [discriminate|].
  destruct (ascii_dec c c'); [apply IH|discriminate].
Qed.

Lemma prefix_app_l (p q s : string) :
  prefix (p ++ q) s = true -> prefix p s = true.
Proof.
  revert s. induction p as [|c p IH]; intros s; [intros _; apply prefix_nil|].
  destruct s as [|c' s]; simpl; [discriminate|].
  destruct (ascii_dec c c'); [apply IH|discriminate].
Qed.

(** Whatever lies beneath a directory passes the test of the code. *)
Lemma beneath_InDir (e d : DirEntry) : beneath e d = true -> InDir e d = true.
Proof.
  unfold beneath, InDir, HasPrefix. intros H.
  apply andb_true_iff in H as [Hd Hp]. rewrite Hd. simpl.
  apply prefix_app_r. now apply prefix_app_l with (q := "/").
Qed.

(** A string is a prefix of [s ++ "/"] when it is a prefix of [s], or is
    [s ++ "/"] itself. *)
Lemma prefix_slash (p s : string) :
  prefix p (s ++ "/") = prefix p s || (p =? s ++ "/")%string.
Proof.
  revert s. induction p as [|c p IH]; intros s; [now rewrite !prefix_nil|].
  destruct s as [|c' s]; cbn [append prefix String.eqb].
  - destruct (ascii_dec c "/") as [->|N].
    + rewrite Ascii.eqb_refl. now destruct p.
    + apply Ascii.eqb_neq in N. now rewrite N.
  - destruct (ascii_dec c c') as [->|N].
    + rewrite Ascii.eqb_refl. apply IH.
    + apply Ascii.eqb_neq in N. now rewrite N.
Qed.

(** What the test of [InDir] accepts: the entry is taken to be in the
    directory as soon as the directory's path is a prefix of the entry's path
    as a string of bytes, wherever the path components end (or is the entry's
    path followed by a slash). No separator is looked for after the
    directory's path. *)
Theorem InDir_string_prefix (e d : DirEntry) :
  InDir e d
  = IsDir d && (HasPrefix (Path e) (Path d) || (Path d =? Path e ++ "/")%string).
Proof. unfold InDir, HasPrefix. now rewrite prefix_slash. Qed.

Lemma app_one_neq {A : Type} (l : list A) (x : A) : l ++ [x] <> l.
Proof.
  intros H. apply (f_equal (@List.length A)) in H.
  rewrite length_app in H. simpl in H. lia.
Qed.

(** [appendEntry] skips the candidate exactly when the list's last entry
    passes the test of the code, [InDir], and appends it otherwise. *)
Lemma appendEntry_skips_iff (l : DirList) (e : DirEntry) :
  (appendEntry l e = l <-> exists d, last_entry l = Some d /\ InDir e d = true) /\
  (appendEntry l e = l \/ appendEntry l e = l ++ [e]).
Proof.
  unfold appendEntry. destruct (last_entry l) as [d|].
  - destruct (InDir e d) eqn:E; split; auto; split.
    + intros _. now exists d.
    + reflexivity.
    + intros H. now apply app_one_neq in H.
    + intros (d' & [= <-] & H). congruence.
  - split; auto. split.
    + intros H. now apply app_one_neq in H.
    + intros (d' & H & _). discriminate.
Qed.

(** C2, on inputs where the code and the claim part: after the directory [a]
    the file [ab], which is not beneath [a], is skipped. The test of the code
    holds of the pair, the test of the claim does not, and [Diff] asks for [a]
    alone (resp. removes [a] alone). So on a first deploy of a tree with a
    directory [app] and a file [app.yaml] the file is never asked for. *)
Theorem appendEntry_skips_sibling :
  beneath (fileEntry "ab" "h") (dirEntry "a") = false /\
  InDir (fileEntry "ab" "h") (dirEntry "a") = true /\
  appendEntry [dirEntry "a"] (fileEntry "ab" "h") = [dirEntry "a"] /\
  Diff [] [dirEntry "a"; fileEntry "ab" "h"] = ([dirEntry "a"], []) /\
  Diff [dirEntry "a"; fileEntry "ab" "h"] [] = ([], [dirEntry "a"]) /\
  Diff [dirEntry "."]
       [dirEntry "."; dirEntry "app"; fileEntry "app.yaml" "1"; fileEntry "app/main.go" "2"]
  = ([dirEntry "app"], []).
Proof. repeat split. Qed.

(** C1, on a pair of snapshots where the code and the claim part. The server
    holds [app.yaml] with hash 1; the client has a new directory [app] and
    [app.yaml] with hash 2. Both listings are sorted. After two turns the
    fronts are the two [app.yaml] entries: equal paths, both files, different
    hashes, and [add] is [[app]]. The turn advances both cursors and leaves
    [remove] as it is, as the claim says, but the "want" entry does not reach
    [add]: it is not beneath [app], yet it passes the test [appendEntry]
    makes against [app]. [Diff] returns [add = [app]], no entry of which has
    the path [app.yaml]: the changed file is never asked for. *)
Theorem Diff_drops_changed_sibling :
  sort_Sort [dirEntry "."; fileEntry "app.yaml" "1"]
  = [dirEntry "."; fileEntry "app.yaml" "1"] /\
  sort_Sort [dirEntry "."; dirEntry "app"; fileEntry "app.yaml" "2"; fileEntry "app/main.go" "3"]
  = [dirEntry "."; dirEntry "app"; fileEntry "app.yaml" "2"; fileEntry "app/main.go" "3"] /\
  Diff_loop 2 (mkDiff [dirEntry "."; fileEntry "app.yaml" "1"]
                      [dirEntry "."; dirEntry "app"; fileEntry "app.yaml" "2";
                       fileEntry "app/main.go" "3"] [] [])
  = mkDiff [fileEntry "app.yaml" "1"]
           [fileEntry "app.yaml" "2"; fileEntry "app/main.go" "3"]
           [dirEntry "app"] [] /\
  Diff_step (mkDiff [fileEntry "app.yaml" "1"]
                    [fileEntry "app.yaml" "2"; fileEntry "app/main.go" "3"]
                    [dirEntry "app"] [])
  = Some (mkDiff [] [fileEntry "app/main.go" "3"] [dirEntry "app"] []) /\
  beneath (fileEntry "app.yaml" "2") (dirEntry "app") = false /\
  InDir (fileEntry "app.yaml" "2") (dirEntry "app") = true /\
  Diff [dirEntry "."; fileEntry "app.yaml" "1"]
       [dirEntry "."; dirEntry "app"; fileEntry "app.yaml" "2"; fileEntry "app/main.go" "3"]
  = ([dirEntry "app"], []) /\
  has_path (fst (Diff [dirEntry "."; fileEntry "app.yaml" "1"]
                      [dirEntry "."; dirEntry "app"; fileEntry "app.yaml" "2";
                       fileEntry "app/main.go" "3"])) "app.yaml" = false.
Proof. repeat split. Qed.

(** Outside snapshots the directory case needs the hashes to agree: two
    directories that carry different hashes are handled as a changed file. *)
Remark Diff_step_directories_with_hashes :
  Diff_step (mkDiff [mkEntry "a" true "1"] [mkEntry "a" true "2"] [] [])
  = Some (mkDiff [] [] [mkEntry "a" true "2"] []).
Proof. reflexivity. Qed.

(** *** Sorting, and what [Diff] leaves in its arguments *)

Lemma strictly_ascending_ascending (l : DirList) :
  strictly_ascending l -> ascending l.
Proof.
  unfold strictly_ascending, ascending.
  induction 1 as [|x l Hs IH Hh]; constructor; auto.
  destruct Hh as [|y l Hxy]; constructor. now apply Less_asym.
Qed.

Lemma insert_entry_perm (e : DirEntry) (l : DirList) :
  Permutation (e :: l) (insert_entry e l).
Proof.
  induction l as [|x r IH]; simpl; [reflexivity|].
  destruct (Less x e); [|reflexivity].
  rewrite perm_swap. now constructor.
Qed.

Lemma sort_Sort_perm (l : DirList) : Permutation l (sort_Sort l).
Proof.
  induction l as [|x r IH]; simpl; [constructor|].
  rewrite <- insert_entry_perm. now constructor.
Qed.

Lemma insert_entry_ascending (e : DirEntry) (l : DirList) :
  ascending l -> ascending (insert_entry e l).
Proof.
  unfold ascending. induction 1 as [|x r Hs IH Hh]; simpl.
  - repeat constructor.
  - destruct (Less x e) eqn:E.
    + constructor; [exact IH|].
      destruct Hh as [|y r' Hxy]; simpl.
      * constructor. now apply Less_asym.
      * destruct (Less y e); constructor; auto. now apply Less_asym.
    + constructor; [now constructor|now constructor].
Qed.

Lemma sort_Sort_ascending (l : DirList) : ascending (sort_Sort l).
Proof.
  induction l as [|x r IH]; simpl; [constructor|].
  now apply insert_entry_ascending.
Qed.

Lemma sort_Sort_of_ascending (l : DirList) : ascending l -> sort_Sort l = l.
Proof.
  unfold ascending. induction 1 as [|x r Hs IH Hh]; simpl; [reflexivity|].
  rewrite IH. destruct Hh as [|y r' Hxy]; simpl; [reflexivity|].
  now rewrite Hxy.
Qed.

Lemma sort_Sort_idem (l : DirList) : sort_Sort (sort_Sort l) = sort_Sort l.
Proof. apply sort_Sort_of_ascending, sort_Sort_ascending. Qed.

Lemma Diff_in_place_store (m : store) (oa wa a : nat) :
  snd (Diff_in_place m oa wa) a
  = if Nat.eqb a oa || Nat.eqb a wa then sort_Sort (m a) else m a.
Proof.
  unfold Diff_in_place, sort_in_place, store_set; simpl.
  destruct (Nat.eqb_spec a oa) as [->|Ho]; simpl.
  - destruct (Nat.eqb_spec oa wa) as [->|Hw]; [apply sort_Sort_idem|reflexivity].
  - destruct (Nat.eqb_spec a wa) as [->|Hw]; reflexivity.
Qed.

(** The result lists are those of [Diff] on the entries, also when the two
    arguments are one slice. *)
Lemma Diff_in_place_result (m : store) (oa wa : nat) :
  fst (Diff_in_place m oa wa) = Diff (m oa) (m wa).
Proof.
  unfold Diff_in_place, Diff, sort_in_place, store_set; simpl.
  destruct (Nat.eqb_spec wa oa) as [->|Hw].
  - now rewrite !Nat.eqb_refl, !sort_Sort_idem.
  - rewrite !Nat.eqb_refl.
    destruct (Nat.eqb_spec oa wa) as [E|_]; [congruence|reflexivity].
Qed.

(** A slice diffed against itself. *)
Lemma Diff_in_place_same (m : store) (a : nat) :
  fst (Diff_in_place m a a) = ([], []).
Proof. rewrite Diff_in_place_result. apply Diff_sorted_same. Qed.

(** The claim of C9 fails on the list of the test [TestOnlyWant]: the caller's
    [theirs] is in another order after the call. *)
Lemma Diff_reorders_its_argument :
  let theirs := [fileEntry "a" ""; fileEntry "c" ""; dirEntry "b"; fileEntry "b/a" ""] in
  let m := store_set (fun _ => []) 1 theirs in
  snd (Diff_in_place m 0 1) 1
  = [fileEntry "a" ""; dirEntry "b"; fileEntry "b/a" ""; fileEntry "c" ""] /\
  snd (Diff_in_place m 0 1) 1 <> m 1.
Proof. split; [reflexivity|discriminate]. Qed.

(** C9, amended: [Diff] sorts both of its arguments in place. After the call
    each of them holds the entries it held, in ascending order of path; an
    argument that was in strictly ascending order is as it was; no other
    array of the store is written. *)
Theorem Diff_in_place_sorts (m : store) (oa wa : nat) :
  let m' := snd (Diff_in_place m oa wa) in
  (Permutation (m oa) (m' oa) /\ ascending (m' oa)) /\
  (Permutation (m wa) (m' wa) /\ ascending (m' wa)) /\
  (forall a, a = oa \/ a = wa -> strictly_ascending (m a) -> m' a = m a) /\
  (forall a, a <> oa -> a <> wa -> m' a = m a).
Proof.
  cbv zeta. repeat split.
  - rewrite Diff_in_place_store, Nat.eqb_refl. apply sort_Sort_perm.
  - rewrite Diff_in_place_store, Nat.eqb_refl. apply sort_Sort_ascending.
  - rewrite Diff_in_place_store, Nat.eqb_refl, orb_true_r. apply sort_Sort_perm.
  - rewrite Diff_in_place_store, Nat.eqb_refl, orb_true_r. apply sort_Sort_ascending.
  - intros a _ Ha. rewrite Diff_in_place_store.
    destruct (_ || _); [|reflexivity].
    now apply sort_Sort_of_ascending, strictly_ascending_ascending.
  - intros a Ho Hw. rewrite Diff_in_place_store.
    apply Nat.eqb_neq in Ho, Hw. now rewrite Ho, Hw.
Qed.

Lemma Diff_in_place_sorts_witness :
  let m := store_set (store_set (fun _ => []) 0 [fileEntry "b" "1"; fileEntry "a" "2"])
                     1 [fileEntry "a" "2"; fileEntry "b" "3"] in
  snd (Diff_in_place m 0 1) 0 = [fileEntry "a" "2"; fileEntry "b" "1"] /\
  snd (Diff_in_place m 0 1) 1 = m 1 /\
  snd (Diff_in_place m 0 1) 2 = m 2.
Proof.
  cbv zeta.
  pose proof (Diff_in_place_sorts
    (store_set (store_set (fun _ => []) 0 [fileEntry "b" "1"; fileEntry "a" "2"])
               1 [fileEntry "a" "2"; fileEntry "b" "3"]) 0 1) as (_ & _ & Hs & Ho).
  split; [reflexivity|]. split.
  - apply Hs; [now right|]. repeat constructor.
  - apply Ho; discriminate.
Defined.

End DiffFacts.

(** ** The build lifecycle *)

Section LifecycleFacts.

Import flexdev.
Import server.

Variable W : World.

Lemma state_eqb_eq (a b : state) : state_eqb a b = true <-> a = b.
Proof. destruct a, b; simpl; split; congruence. Qed.

Lemma state_eqb_neq (a b : state) : state_eqb a b = false <-> a <> b.
Proof. destruct a, b; simpl; split; congruence. Qed.

(** [GoBuild] always returns (it has no test of the state it is called in),
    with the error of the compiler run. *)
Lemma GoBuild_returns (b : Build) :
  let c := go_build_cmd W (set_State b StateBuilding) in
  exists b', GoBuild W b = MReturn b' (snd (cmd_Run W c)) [Run c].
Proof.
  cbv zeta. unfold GoBuild.
  destruct (cmd_Run W _) as [out [e|]]; simpl; eexists; reflexivity.
Qed.

(** C4, amended: when the compilation step of [GoBuild] fails, the error is
    returned and the record is left in state Building, the state [GoBuild]
    sets on entry, whatever state it was called in; the state becomes Built
    exactly when the compilation succeeds. In both cases the compiler's
    output is appended to the log and nothing else of the record changes. *)
Theorem GoBuild_state (b : Build) :
  let c := go_build_cmd W (set_State b StateBuilding) in
  let out := fst (cmd_Run W c) in
  let err := snd (cmd_Run W c) in
  exists b',
    GoBuild W b = MReturn b' err [Run c] /\
    (forall e, err = Some e -> State b' = StateBuilding) /\
    (State b' = StateBuilt <-> err = None) /\
    b' = set_State (set_output b (output b ++ out)) (State b').
Proof.
  cbv zeta. unfold GoBuild.
  destruct (cmd_Run W _) as [out [e|]]; simpl; eexists; (split; [reflexivity|]);
    simpl; repeat split; congruence.
Qed.

(** C5: [Stop] returns without error only from state Running, and then leaves
    the record Stopped; from every other state it returns the invalid-state
    error and the record as it was; from Running with a command that has no
    process it leaves the record Stopped and returns an error. (When the kill
    itself fails, its error is returned and the record stays Running.) *)
Theorem Stop_spec (b : Build) :
  (State b <> StateRunning ->
     Stop W b = MReturn b (Some "Tried to stop binary when not running") []) /\
  (forall c, State b = StateRunning -> cmd b = Some c -> cmdProcess c = None ->
     Stop W b = MReturn (set_State b StateStopped)
                        (Some "Tried to stop binary when process not running") []) /\
  (forall c p e, State b = StateRunning -> cmd b = Some c -> cmdProcess c = Some p ->
     Process_Kill W p = Some e -> Stop W b = MReturn b (Some e) [Kill p]) /\
  (forall b' t, Stop W b = MReturn b' None t ->
     State b = StateRunning /\ b' = set_State b StateStopped).
Proof.
  unfold Stop. repeat split.
  - intros H. apply state_eqb_neq in H. now rewrite H.
  - intros c H Hc Hp. apply state_eqb_eq in H. now rewrite H, Hc, Hp.
  - intros c p e H Hc Hp Hk. apply state_eqb_eq in H. now rewrite H, Hc, Hp, Hk.
  - destruct (state_eqb (State b) StateRunning) eqn:E; [|discriminate].
    now apply state_eqb_eq.
  - destruct (state_eqb (State b) StateRunning); simpl in H; [|discriminate].
    destruct (cmd b) as [c|]; [|discriminate].
    destruct (cmdProcess c) as [p|]; [|discriminate].
    destruct (Process_Kill W p); congruence.
Qed.

End LifecycleFacts.

Section LifecycleExamples.

Import flexdev.
Import server.

(** The claim of C4 fails on a record in state Created whose compilation
    fails: the record is left in state Building. *)
Lemma GoBuild_failure_leaves_Building :
  let W := testWorld ("main.go:3: syntax error", Some "exit status 2")
                     (emptyConfig, None) (inl []) None "1" in
  State (testBuild StateCreated) = StateCreated /\
  GoBuild W (testBuild StateCreated)
  = MReturn (mkBuild "1462603439818096410" StateBuilding [] [] "/tmp/flexdev-server"
                     None "main.go:3: syntax error" "" (Some emptyConfig))
            (Some "exit status 2")
            [Run (go_build_cmd W (testBuild StateCreated))].
Proof. split; reflexivity. Qed.

Lemma GoBuild_state_witness :
  let W := testWorld ("main.go:3: syntax error", Some "exit status 2")
                     (emptyConfig, None) (inl []) None "1" in
  exists b',
    GoBuild W (testBuild StateBuilt)
    = MReturn b' (Some "exit status 2") [Run (go_build_cmd W (testBuild StateBuilding))] /\
    State b' = StateBuilding.
Proof.
  cbv zeta.
  destruct (GoBuild_state
              (testWorld ("main.go:3: syntax error", Some "exit status 2")
                         (emptyConfig, None) (inl []) None "1")
              (testBuild StateBuilt)) as (b' & E & Hf & _).
  exists b'. split; [exact E|]. now apply (Hf "exit status 2").
Defined.

(** From Running with no command recorded at all, [Stop] dereferences nil. *)
Remark Stop_without_command :
  Stop (testWorld ("", None) (emptyConfig, None) (inl []) None "1") (testBuild StateRunning)
  = MPanic (testBuild StateRunning) [].
Proof. reflexivity. Qed.

Lemma Stop_spec_witness :
  let W := testWorld ("", None) (emptyConfig, None) (inl []) None "1" in
  Stop W (testBuild StateCreated)
  = MReturn (testBuild StateCreated) (Some "Tried to stop binary when not running") [] /\
  Stop W (set_cmd (testBuild StateRunning) (Some (mkCmd ["./a.out"] "" [] None)))
  = MReturn (set_cmd (testBuild StateStopped) (Some (mkCmd ["./a.out"] "" [] None)))
            (Some "Tried to stop binary when process not running") [].
Proof.
  cbv zeta. split.
  - apply (Stop_spec _ (testBuild StateCreated)). discriminate.
  - apply (Stop_spec _ (set_cmd (testBuild StateRunning) (Some (mkCmd ["./a.out"] "" [] None))))
      with (c := mkCmd ["./a.out"] "" [] None); reflexivity.
Defined.

End LifecycleExamples.

(** ** The build slot and its handlers *)

Section SlotFacts.

Import flexdev.
Import server.

Variable W : World.

(** The claim of C6 fails when there is no live record: the answer is a
    fixed text, with no state and no log in it. *)
Lemma proxyHandler_without_build :
  proxyHandler None
  = [WriteHeader 503;
     HeaderSet "Content-Type" "text/plain; charset=utf-8";
     Write "No app to run. Use `flexdev deploy` to deploy the application code."] /\
  (forall b, proxyHandler None <> unavailable_with_state_and_log b).
Proof. split; [reflexivity|discriminate]. Qed.

(** C6, amended: [proxyHandler] hands the request to the reverse proxy, for
    the address of the live record, if and only if there is a live record and
    its state is Running. With a live record in any other state it answers
    service-unavailable with the state and the log as plain text; with no live
    record it answers service-unavailable with a fixed text. In both of these
    cases nothing is forwarded. *)
Theorem proxyHandler_spec (build : option Build) :
  (forwards (proxyHandler build) = true
   <-> exists b, build = Some b /\ State b = StateRunning) /\
  (forall b, build = Some b -> State b = StateRunning ->
     proxyHandler build = [HeaderSet "X-FlexDev" Version; ReverseProxy "http" (addr b)]) /\
  (forall b, build = Some b -> State b <> StateRunning ->
     proxyHandler build = unavailable_with_state_and_log b) /\
  (build = None ->
     proxyHandler build
     = [WriteHeader 503;
        HeaderSet "Content-Type" "text/plain; charset=utf-8";
        Write "No app to run. Use `flexdev deploy` to deploy the application code."]).
Proof.
  repeat split.
  - destruct build as [b|]; [|discriminate]. simpl.
    destruct (state_eqb (State b) StateRunning) eqn:E; [|discriminate].
    intros _. exists b. split; [reflexivity|now apply state_eqb_eq].
  - intros (b & -> & H). simpl. apply state_eqb_eq in H. now rewrite H.
  - intros b -> H. simpl. apply state_eqb_eq in H. now rewrite H.
  - intros b -> H. simpl. apply state_eqb_neq in H. now rewrite H.
  - now intros ->.
Qed.

(** C8, on the inputs where the code and the claim part: with no live record
    (as on a server that has seen no create yet) a start request panics, and
    so does a put request that names a build; neither writes a response. The
    slot is left as it was. *)
Theorem handlers_panic_without_build :
  handle W None StartBuild = HPanic None [] /\
  handle W None (Put (mkPutRequest "1462603439818096410" "main.go" "da39" (inl "package main")))
  = HPanic None [].
Proof. split; reflexivity. Qed.

(** The two other control operations answer when there is no live record. *)
Lemma status_without_build :
  handle W None Status
  = HReturn None [WriteJSON (response 0 None ("build=nil" ++ String "010" ""))].
Proof. reflexivity. Qed.

Lemma create_never_panics_without_build (body : decoded) :
  exists build t, handle W None (Create body) = HReturn build t.
Proof.
  simpl. unfold createBuild_from_body, createBuild_from_config.
  destruct body as [r| |e]; simpl; try (do 2 eexists; reflexivity).
  destruct (Nat.eqb _ 0); [do 2 eexists; reflexivity|].
  destruct (Nat.eqb _ 0); [do 2 eexists; reflexivity|].
  destruct (yaml_Unmarshal W _) as [cfg yerr].
  destruct (os_MkdirAll W _); [do 2 eexists; reflexivity|].
  destruct (filesNeeded W _) as [b [[need rm]|e]]; [|do 2 eexists; reflexivity].
  destruct (removeFiles W _ _) as [tr [e|]]; do 2 eexists; reflexivity.
Qed.

Lemma removeFiles_all (d : string) (fs : list string) :
  (forall f, In f fs -> os_RemoveAll W (filepath_Join W d f) = None) ->
  removeFiles W d fs = (removals W d fs, None).
Proof.
  induction fs as [|f rest IH]; intros H; simpl; [reflexivity|].
  rewrite (H f) by now left.
  rewrite IH by (intros; apply H; now right). reflexivity.
Qed.

(** C10: when the config of a create request does not parse, and nothing else
    fails (there is no running build to stop, or it stops; the build directory
    can be made and listed; the stale paths can be removed), [createBuildHandler]
    writes the bad-request response and goes on: it puts a new record in the
    slot, in state Created, with the config as far as it was parsed; takes the
    diff of the build directory against the request's files; removes the paths
    of the remove list; and writes a second response, "Build created.", with
    the paths of the add list. *)
Theorem create_goes_on_after_yaml_error
    (build : option Build) (req : CreateBuildRequest)
    (cfg : config) (e : error) (ours0 : DirList) :
  (forall b, build = Some b -> State b = StateRunning ->
     exists b' t, Stop W b = MReturn b' None t) ->
  Config req <> "" -> Files req <> [] ->
  yaml_Unmarshal W (Config req) = (cfg, Some e) ->
  os_MkdirAll W (packageDir W) = None ->
  ListDir W (packageDir W) = inl ours0 ->
  (forall f, In f (map Path (snd (Diff ours0 (Files req)))) ->
     os_RemoveAll W (filepath_Join W (packageDir W) f) = None) ->
  let new := mkBuild (UnixNano W) StateCreated (sort_Sort (Files req)) []
                     (packageDir W) None "" "" (Some cfg) in
  exists t0,
    createBuildHandler W build (Decoded req)
    = HReturn (Some new)
        (t0
         ++ [WriteHeader 400;
             WriteJSON (mkResponse 400 (Some ("Could not parse yaml config: " ++ e)%string)
                                   None [] ""
                                   ("Could not parse yaml config: " ++ e)%string)]
         ++ [MkdirAll (packageDir W)]
         ++ removals W (packageDir W) (map Path (snd (Diff ours0 (Files req))))
         ++ [WriteJSON (mkResponse 0 None (Some new)
                                   (map Path (fst (Diff ours0 (Files req))))
                                   "Build created." "")]).
Proof.
  intros Hstop Hc Hf Hy Hm Hl Hr new.
  assert (Body : forall bd t,
    createBuild_from_body W bd t (Decoded req)
    = HReturn (Some new)
        (t ++ [WriteHeader 400;
               WriteJSON (mkResponse 400 (Some ("Could not parse yaml config: " ++ e)%string)
                                     None [] ""
                                     ("Could not parse yaml config: " ++ e)%string)]
           ++ [MkdirAll (packageDir W)]
           ++ removals W (packageDir W) (map Path (snd (Diff ours0 (Files req))))
           ++ [WriteJSON (mkResponse 0 None (Some new)
                                     (map Path (fst (Diff ours0 (Files req))))
                                     "Build created." "")])).
  { intros bd t. unfold createBuild_from_body.
    destruct (Config req) as [|c0 cs] eqn:Ec; [congruence|]. simpl String.length.
    destruct (Files req) as [|f0 fs] eqn:Ef; [congruence|]. simpl List.length.
    simpl Nat.eqb. cbv iota.
    unfold createBuild_from_config. rewrite Ec, Hy, Hm.
    unfold filesNeeded. simpl dir. rewrite Hl. simpl clientFiles. rewrite Ef.
    destruct (Diff ours0 (f0 :: fs)) as [add_ del] eqn:Ed. simpl dir.
    simpl fst in *. simpl snd in *.
    rewrite removeFiles_all by exact Hr.
    unfold new, set_clientFiles, WriteTo, response, StatusBadRequest; simpl.
    rewrite <- !app_assoc. reflexivity. }
  unfold createBuildHandler.
  destruct build as [b|]; [|exists []; apply Body].
  destruct (state_eqb (State b) StateRunning) eqn:E; [|exists []; apply Body].
  apply state_eqb_eq in E.
  destruct (Hstop b eq_refl E) as (b' & t & Hs). rewrite Hs.
  exists t. apply Body.
Qed.

End SlotFacts.

Section SlotExamples.

Import flexdev.
Import server.

Lemma proxyHandler_spec_witness :
  forwards (proxyHandler (Some (set_addr (testBuild StateRunning) "[::]:8081"))) = true /\
  proxyHandler (Some (testBuild StateBuilding))
  = unavailable_with_state_and_log (testBuild StateBuilding).
Proof.
  split.
  - apply (proxyHandler_spec (Some (set_addr (testBuild StateRunning) "[::]:8081"))).
    eexists; split; reflexivity.
  - apply (proxyHandler_spec (Some (testBuild StateBuilding))) with (b := testBuild StateBuilding);
      [reflexivity|discriminate].
Defined.

(** A create request whose config does not parse, on a server with no live
    record whose build directory holds a stale file. *)
Lemma create_goes_on_after_yaml_error_witness :
  let W := testWorld ("", None)
                     (mkConfig "go" "" [], Some "yaml: line 2: did not find expected key")
                     (inl [dirEntry "."; fileEntry "old.go" "1"]) None "42" in
  let req := mkCreateBuildRequest "runtime: go" [fileEntry "main.go" "2"; dirEntry "."] in
  let new := mkBuild "42" StateCreated [dirEntry "."; fileEntry "main.go" "2"] []
                     "/tmp/flexdev-server" None "" "" (Some (mkConfig "go" "" [])) in
  exists t0,
    createBuildHandler W None (Decoded req)
    = HReturn (Some new)
        (t0
         ++ [WriteHeader 400;
             WriteJSON (mkResponse 400
                          (Some "Could not parse yaml config: yaml: line 2: did not find expected key")
                          None [] ""
                          "Could not parse yaml config: yaml: line 2: did not find expected key")]
         ++ [MkdirAll "/tmp/flexdev-server"]
         ++ [RemoveAll "/tmp/flexdev-server/old.go"]
         ++ [WriteJSON (mkResponse 0 None (Some new) ["main.go"] "Build created." "")]).
Proof.
  cbv zeta.
  apply (create_goes_on_after_yaml_error
           (testWorld ("", None)
                      (mkConfig "go" "" [], Some "yaml: line 2: did not find expected key")
                      (inl [dirEntry "."; fileEntry "old.go" "1"]) None "42")
           None
           (mkCreateBuildRequest "runtime: go" [fileEntry "main.go" "2"; dirEntry "."])
           (mkConfig "go" "" [])
           "yaml: line 2: did not find expected key"
           [dirEntry "."; fileEntry "old.go" "1"]);
    try reflexivity; try discriminate.
Defined.

End SlotExamples.

(** ** The upload pool *)

Section PoolFacts.

Import client.

Variable putFile : string -> option error.
Variable walkErr : option error.

Local Abbreviation step := (client.step putFile walkErr).
Local Abbreviation run := (client.run putFile walkErr).
Local Abbreviation reachable := (client.reachable putFile walkErr).

(** *** Lists of workers *)

Lemma length_set_nth {A : Type} (i : nat) (x : A) (l : list A) :
  length (set_nth i x l) = length l.
Proof.
  revert i. induction l as [|y r IH]; intros [|j]; simpl; auto.
Qed.

Lemma total_set_nth (f : worker -> nat) (i : nat) (w w' : worker) (ws : list worker) :
  nth_error ws i = Some w ->
  total f (set_nth i w' ws) + f w = total f ws + f w'.
Proof.
  unfold total. revert i. induction ws as [|y r IH]; intros [|j] H; simpl in *;
    try discriminate.
  - injection H as ->. lia.
  - specialize (IH j H). lia.
Qed.


Lemma total_repeat_zero (f : worker -> nat) (w : worker) (n : nat) :
  f w = 0 -> total f (repeat w n) = 0.
Proof.
  intros H. unfold total. induction n as [|n IH]; simpl; [reflexivity|].
  now rewrite H, IH.
Qed.

(** *** Logs that grow at the end *)

Lemma last_recorded_snoc (l : list occurrence) (o : occurrence) :
  last_recorded (l ++ [o])
  = match o with Recorded _ e => Some e | _ => last_recorded l end.
Proof.
  induction l as [|x r IH]; simpl.
  - now destruct o.
  - rewrite IH. destruct x; try reflexivity.
    destruct o; reflexivity.
Qed.

Lemma has_recorded_last (l : list occurrence) :
  has_recorded l = is_set (last_recorded l).
Proof.
  unfold has_recorded. induction l as [|x r IH]; simpl; [reflexivity|].
  destruct x; simpl; auto. now destruct (last_recorded r).
Qed.

Lemma dequeued_paths_snoc (l : list occurrence) (o : occurrence) :
  dequeued_paths (l ++ [o])
  = dequeued_paths l ++ match o with Dequeued _ path _ => [path] | _ => [] end.
Proof.
  induction l as [|x r IH]; simpl.
  - now destruct o.
  - rewrite IH. now destruct x.
Qed.

Lemma skips_follow_error_snoc (seen : bool) (l : list occurrence) (o : occurrence) :
  skips_follow_error seen (l ++ [o])
  = skips_follow_error seen l
    && match o with
       | Dequeued _ _ true => seen || has_recorded l
       | _ => true
       end.
Proof.
  unfold has_recorded. revert seen. induction l as [|x r IH]; intros seen; simpl.
  - destruct o as [i path [|]|i path|i e]; simpl; now rewrite ?andb_true_r, ?orb_false_r.
  - destruct x as [i path [|]|i path|i e]; simpl; rewrite IH; simpl;
      rewrite ?andb_assoc; try reflexivity.
    now destruct o as [? ? [|]| |]; rewrite ?orb_true_r.
Qed.


(** *** The steps, one by one *)

Lemma step_cases (P : pool -> Prop) (l : label) (s s' : pool) :
  step l s = Some s' ->
  (forall i, nth_error (workers s) i = Some AtCheck ->
     P (set_worker s i (AtReceive (is_set (sendErr s))))) ->
  (forall i path, nth_error (workers s) i = Some (AtPut path) ->
     P (set_worker (logged s (Transferred i path)) i
          (match putFile path with Some e => AtRecord path e | None => AtDone end))) ->
  (forall i path e, nth_error (workers s) i = Some (AtRecord path e) ->
     P (set_worker (logged (set_sendErr s (Some (send_error path e)))
                           (Recorded i (send_error path e))) i AtDone)) ->
  (forall i k, nth_error (workers s) i = Some AtDone -> wg s = S k ->
     P (set_worker (set_wg s k) i AtCheck)) ->
  (forall i path rest skip,
     main s = Sending path rest -> nth_error (workers s) i = Some (AtReceive skip) ->
     P (set_worker (logged (set_main s (Pushing rest)) (Dequeued i path skip)) i
          (if skip then AtDone else AtPut path))) ->
  (forall path rest, main s = Pushing (path :: rest) ->
     P (set_wg (set_main s (Sending path rest)) (S (wg s)))) ->
  (forall e, main s = Pushing [] -> walkErr = Some e ->
     P (set_main s (Returned (Some e)))) ->
  (main s = Pushing [] -> walkErr = None -> P (set_main s Waiting)) ->
  (main s = Waiting -> wg s = 0 ->
     P (set_main s (Returned (option_map deploy_error (sendErr s))))) ->
  P s'.
Proof.
  intros H Hcheck Hput Hrecord Hdone Hsend Hadd Hfail Hend Hwait.
  destruct l as [i|i|]; simpl in H.
  - unfold step_worker in H.
    destruct (nth_error (workers s) i) as [[|skip|path|path e|]|] eqn:Hw;
      try discriminate.
    + injection H as <-. now apply Hcheck.
    + specialize (Hput i path Hw).
      destruct (putFile path); injection H as <-; exact Hput.
    + injection H as <-. now apply Hrecord.
    + destruct (wg s) as [|k] eqn:Hk; [discriminate|].
      injection H as <-. now apply Hdone.
  - unfold step_send in H.
    destruct (main s) as [fs|path rest| |r] eqn:Hm; try discriminate.
    destruct (nth_error (workers s) i) as [[|skip|?|? ?|]|] eqn:Hw; try discriminate.
    injection H as <-. now apply Hsend.
  - unfold step_main in H.
    destruct (main s) as [[|path rest]|path rest| |r] eqn:Hm; try discriminate.
    + destruct walkErr as [e|] eqn:He; injection H as <-; [now apply Hfail|now apply Hend].
    + injection H as <-. now apply Hadd.
    + destruct (wg s) eqn:Hk; [|discriminate]. injection H as <-. now apply Hwait.
Qed.

Lemma run_reachable (n : nat) (files : list string) (sched : list label) (s s' : pool) :
  reachable n files s -> run sched s = Some s' -> reachable n files s'.
Proof.
  revert s. induction sched as [|l rest IH]; intros s Hs H; simpl in H.
  - now injection H as <-.
  - destruct (step l s) as [s1|] eqn:E; [|discriminate].
    apply (IH s1); [|exact H]. now apply reach_step with s l.
Qed.

(** *** Every step brings the pool nearer to its end *)



(** *** Invariants *)

Lemma nth_error_total_le (f : worker -> nat) (ws : list worker) (i : nat) (w : worker) :
  nth_error ws i = Some w -> f w <= total f ws.
Proof.
  unfold total. revert i. induction ws as [|y r IH]; intros [|j] H; simpl in *;
    try discriminate.
  - injection H as ->. lia.
  - specialize (IH j H). lia.
Qed.


Ltac totals f :=
  try match goal with
  | E : nth_error (workers ?s) ?i = Some ?w |- context [set_nth ?i ?w' (workers ?s)] =>
      pose proof (total_set_nth f i w w' (workers s) E);
      pose proof (nth_error_total_le f (workers s) i w E)
  end.

(** The wait group counts the file being sent and the files the workers
    hold. *)
Lemma pool_counting (n : nat) (files : list string) (s : pool) :
  reachable n files s ->
  length (workers s) = n /\
  wg s = sending (main s) + total in_flight (workers s).
Proof.
  induction 1 as [|s l s' Hs [IHn IHw] Hstep].
  - simpl. rewrite repeat_length, total_repeat_zero; auto.
  - apply (step_cases (fun s' =>
             length (workers s') = n /\
             wg s' = sending (main s') + total in_flight (workers s')) _ _ _ Hstep);
      simpl; intros; rewrite ?length_set_nth; (split; [exact IHn|]);
      totals in_flight;
      repeat match goal with E : main s = _ |- _ => rewrite E in *; clear E end;
      try match goal with
      | |- context [putFile ?p] => destruct (putFile p)
      | skip : bool |- _ => destruct skip
      end;
      simpl in *; lia.
Qed.

(** [sendErr] is the error recorded last. *)
Lemma pool_sendErr (n : nat) (files : list string) (s : pool) :
  reachable n files s -> sendErr s = last_recorded (log s).
Proof.
  induction 1 as [|s l s' Hs IH Hstep]; [reflexivity|].
  apply (step_cases (fun s' => sendErr s' = last_recorded (log s')) _ _ _ Hstep);
    simpl; intros; rewrite ?last_recorded_snoc; auto.
Qed.

(** The files received and the files still to push are the files. *)
Lemma pool_queue (n : nat) (files : list string) (s : pool) :
  reachable n files s -> dequeued_paths (log s) ++ pending (main s) = files.
Proof.
  induction 1 as [|s l s' Hs IH Hstep]; [reflexivity|].
  apply (step_cases (fun s' => dequeued_paths (log s') ++ pending (main s') = files)
           _ _ _ Hstep);
    simpl; intros; rewrite ?dequeued_paths_snoc;
    repeat match goal with E : main s = _ |- _ => rewrite E in IH; clear E end;
    simpl in *; rewrite <- ?app_assoc, ?app_nil_r in *; auto.
Qed.

(** [doDeploy] comes to [wg.Wait()] only when the pushing loop did not
    fail. *)
Lemma pool_waiting (n : nat) (files : list string) (s : pool) :
  reachable n files s -> main s = Waiting -> walkErr = None.
Proof.
  induction 1 as [|s l s' Hs IH Hstep]; [discriminate|].
  apply (step_cases (fun s' => main s' = Waiting -> walkErr = None) _ _ _ Hstep);
    simpl; intros; auto; discriminate.
Qed.

(** Once [doDeploy] has returned from [wg.Wait()], no worker holds a file and
    the error returned is [sendErr]; if the pushing loop failed, its error is
    the one returned. *)
Lemma pool_returned (n : nat) (files : list string) (s : pool) (r : option error) :
  reachable n files s -> main s = Returned r ->
  (walkErr = None -> wg s = 0 /\ r = option_map deploy_error (sendErr s)) /\
  (forall e, walkErr = Some e -> r = Some e).
Proof.
  intros Hs. revert r. induction Hs as [|s l s' Hs IH Hstep]; [discriminate|].
  pose proof (pool_counting _ _ _ Hs) as [_ Hc].
  apply (step_cases (fun s' => forall r, main s' = Returned r ->
           (walkErr = None -> wg s' = 0 /\ r = option_map deploy_error (sendErr s')) /\
           (forall e, walkErr = Some e -> r = Some e)) _ _ _ Hstep);
    simpl; intros; try discriminate;
    try match goal with
    | E : main s = Returned _ |- _ => destruct (IH _ E) as [IH1 IH2]
    end;
    try match goal with
    | E : nth_error (workers s) ?i = Some ?w |- _ =>
        pose proof (nth_error_total_le in_flight (workers s) i w E)
    end;
    simpl in *.
  - auto.
  - auto.
  - split; [|auto]. intros Hn. destruct (IH1 Hn). lia.
  - split; [|auto]. intros Hn. destruct (IH1 Hn). lia.
  - injection H1 as <-. split; intros; congruence.
  - injection H1 as <-. pose proof (pool_waiting _ _ _ Hs H). split; intros; [auto|congruence].
Qed.

(** A worker that will skip its next item has seen an error, and every item
    skipped so far was received after an error had been recorded. *)
Lemma pool_skips (n : nat) (files : list string) (s : pool) :
  reachable n files s ->
  skips_follow_error false (log s) = true /\
  (is_set (sendErr s) = true \/ total aware (workers s) = 0).
Proof.
  induction 1 as [|s l s' Hs [IHl IHa] Hstep].
  - simpl. split; [reflexivity|]. right. now apply total_repeat_zero.
  - pose proof (pool_sendErr _ _ _ Hs) as He.
    apply (step_cases (fun s' =>
             skips_follow_error false (log s') = true /\
             (is_set (sendErr s') = true \/ total aware (workers s') = 0)) _ _ _ Hstep);
      simpl; intros; rewrite ?skips_follow_error_snoc, ?IHl; totals aware; simpl in *.
    + split; [reflexivity|]. destruct (sendErr s); simpl in *; [now left|].
      destruct IHa as [|IHa]; [discriminate|]. right. lia.
    + split; [reflexivity|]. destruct IHa as [|IHa]; [now left|]. right.
      destruct (putFile path); simpl in *; lia.
    + split; [reflexivity|now left].
    + split; [reflexivity|]. destruct IHa as [|IHa]; [now left|]. right. lia.
    + rewrite has_recorded_last, <- He.
      destruct skip; simpl in *.
      * destruct IHa as [IHa|IHa]; [|lia]. rewrite IHa. split; [reflexivity|now left].
      * split; [reflexivity|]. destruct IHa as [|IHa]; [now left|]. right. lia.
    + auto.
    + auto.
    + auto.
    + auto.
Qed.


(** *** No deadlock *)




End PoolFacts.

Section PoolExamples.

Import client.


End PoolExamples.

(** ** More on the tree differ *)

Section StringOrder.

Import flexdev.

Lemma ltb_lts (s t : string) : (s <? t)%string = true <-> String_as_OT.lt s t.
Proof.
  unfold String.ltb. rewrite <- String_as_OT.cmp_lt. unfold String_as_OT.cmp.
  destruct (s ?= t)%string; split; congruence.
Qed.

Lemma ltb_trans (s t u : string) :
  (s <? t)%string = true -> (t <? u)%string = true -> (s <? u)%string = true.
Proof. rewrite !ltb_lts. apply String_as_OT.lt_trans. Qed.

Lemma ltb_total (s t : string) :
  (s <? t)%string = false -> (t <? s)%string = false -> s = t.
Proof.
  intros H1 H2. destruct (compare_tests s t) as (He & Hl & Hg).
  apply String.eqb_eq. apply He.
  destruct (s ?= t)%string eqn:E; [reflexivity| |].
  - rewrite (proj2 Hl eq_refl) in H1. discriminate.
  - rewrite (proj2 Hg eq_refl) in H2. discriminate.
Qed.

Lemma ltb_neq (s t : string) : (s <? t)%string = true -> s <> t.
Proof.
  intros H ->. unfold String.ltb in H. now rewrite compare_refl in H.
Qed.

(** [s <= t <= u], in terms of the strict test. *)
Lemma leb_trans (s t u : string) :
  (t <? s)%string = false -> (u <? t)%string = false -> (u <? s)%string = false.
Proof.
  intros H1 H2. destruct (u <? s)%string eqn:E; [|reflexivity].
  destruct (s <? t)%string eqn:E1.
  - now rewrite (ltb_trans _ _ _ E E1) in H2.
  - rewrite (ltb_total _ _ E1 H1) in E. congruence.
Qed.

Lemma ltb_leb_trans (s t u : string) :
  (s <? t)%string = true -> (u <? t)%string = false -> (s <? u)%string = true.
Proof.
  intros H1 H2. destruct (t <? u)%string eqn:E.
  - now apply ltb_trans with t.
  - now rewrite <- (ltb_total _ _ E H2).
Qed.

Lemma leb_ltb_trans (s t u : string) :
  (t <? s)%string = false -> (t <? u)%string = true -> (s <? u)%string = true.
Proof.
  intros H1 H2. destruct (s <? t)%string eqn:E.
  - now apply ltb_trans with t.
  - now rewrite (ltb_total _ _ E H1).
Qed.

End StringOrder.

Section DiffResult.

Import flexdev.

Local Abbreviation le := (fun a b : DirEntry => Less b a = false).

Lemma le_trans (a b c : DirEntry) : le a b -> le b c -> le a c.
Proof. unfold Less. apply leb_trans. Qed.

Lemma ascending_strongly (l : DirList) : ascending l -> StronglySorted le l.
Proof.
  apply Sorted_StronglySorted. intros a b c. apply le_trans.
Qed.

Lemma StronglySorted_app_l (l1 l2 : DirList) :
  StronglySorted le (l1 ++ l2) -> StronglySorted le l1.
Proof.
  induction l1 as [|x l1 IH]; simpl; [constructor|].
  intros H. apply StronglySorted_inv in H as [H1 H2].
  constructor; [auto|]. apply Forall_app in H2. tauto.
Qed.

Lemma StronglySorted_snoc (l : DirList) (x : DirEntry) :
  StronglySorted le (l ++ [x]) -> Forall (fun y => le y x) l.
Proof.
  induction l as [|y l IH]; simpl; [constructor|].
  intros H. apply StronglySorted_inv in H as [H1 H2].
  constructor; [|auto]. apply Forall_app in H2 as [_ H2]. now inversion H2.
Qed.

(** *** Subsequences *)

Lemma subseq_refl (l : DirList) : subseq l l.
Proof. induction l; [apply subseq_nil|now apply subseq_take]. Qed.

Lemma subseq_nil_l (l : DirList) : subseq [] l.
Proof. induction l; [apply subseq_nil|now apply subseq_skip]. Qed.

Lemma subseq_snoc_skip (a b : DirList) (x : DirEntry) :
  subseq a b -> subseq a (b ++ [x]).
Proof.
  induction 1; simpl.
  - apply subseq_skip, subseq_nil.
  - now apply subseq_skip.
  - now apply subseq_take.
Qed.

Lemma subseq_snoc_take (a b : DirList) (x : DirEntry) :
  subseq a b -> subseq (a ++ [x]) (b ++ [x]).
Proof.
  induction 1; simpl.
  - apply subseq_take, subseq_nil.
  - now apply subseq_skip.
  - now apply subseq_take.
Qed.

Lemma subseq_In (a b : DirList) (e : DirEntry) :
  subseq a b -> In e a -> In e b.
Proof.
  induction 1; simpl; intuition.
Qed.

Lemma subseq_Forall (P : DirEntry -> Prop) (a b : DirList) :
  subseq a b -> Forall P b -> Forall P a.
Proof.
  intros H Hb. apply Forall_forall. intros e He.
  rewrite Forall_forall in Hb. apply Hb. now apply subseq_In with a.
Qed.

Lemma subseq_strongly (a b : DirList) :
  subseq a b -> StronglySorted le b -> StronglySorted le a.
Proof.
  induction 1 as [|x a b H IH|x a b H IH]; intros Hb.
  - constructor.
  - apply StronglySorted_inv in Hb as [Hb _]. auto.
  - apply StronglySorted_inv in Hb as [Hb Hx].
    constructor; [auto|]. now apply subseq_Forall with b.
Qed.

(** *** The last entry of a list *)

Lemma last_entry_snoc (l : DirList) (x : DirEntry) : last_entry (l ++ [x]) = Some x.
Proof.
  induction l as [|y l IH]; [reflexivity|].
  simpl. destruct (l ++ [x]) eqn:E; [now destruct l|exact IH].
Qed.

Lemma last_entry_Some (l : DirList) (m : DirEntry) :
  last_entry l = Some m -> exists pre, l = pre ++ [m].
Proof.
  induction l as [|y l IH]; [discriminate|].
  destruct l as [|z l]; simpl.
  - intros [= ->]. now exists [].
  - intros H. destruct (IH H) as [pre E]. exists (y :: pre). simpl. now rewrite <- E.
Qed.

Lemma last_entry_None (l : DirList) : last_entry l = None -> l = [].
Proof.
  induction l as [|y l IH]; [reflexivity|].
  destruct l as [|z l]; simpl; [discriminate|].
  intros H. specialize (IH H). discriminate.
Qed.

(** What [appendEntry] does, with the reason. *)
Lemma appendEntry_either (l : DirList) (e : DirEntry) :
  (exists pre d, l = pre ++ [d] /\ InDir e d = true /\ appendEntry l e = l) \/
  (l = [] /\ appendEntry l e = [e]) \/
  (exists pre d, l = pre ++ [d] /\ InDir e d = false /\ appendEntry l e = l ++ [e]).
Proof.
  unfold appendEntry. destruct (last_entry l) as [d|] eqn:E.
  - destruct (last_entry_Some _ _ E) as [pre ->].
    destruct (InDir e d) eqn:Ei; [left|right; right]; exists pre, d; auto.
  - right; left. apply last_entry_None in E. subst. auto.
Qed.

(** *** Paths between a directory and an entry it is a prefix of *)

Lemma prefix_between (d m x : string) :
  prefix d (x ++ "/") = true ->
  (m <? d)%string = false -> (x <? m)%string = false ->
  prefix d (m ++ "/") = true.
Proof.
  unfold String.ltb. revert m x. induction d as [|c d IH]; intros m x Hp Hm Hx.
  - apply prefix_nil.
  - destruct m as [|c3 m]; [discriminate Hm|].
    destruct x as [|c2 x].
    + simpl in Hx. discriminate Hx.
    + simpl in Hp, Hm, Hx |- *.
      destruct (ascii_dec c c2) as [<-|]; [|discriminate].
      destruct (Ascii.compare c3 c) eqn:E1; try discriminate.
      * apply Ascii.compare_eq_iff in E1. subst c3.
        destruct (ascii_dec c c) as [_|N]; [|now destruct N].
        assert (E2 : Ascii.compare c c = Eq)
          by (unfold Ascii.compare; apply BinNat.N.compare_refl).
        rewrite E2 in Hx. now apply IH with x.
      * rewrite Ascii.compare_antisym, E1 in Hx. discriminate Hx.
Qed.

Lemma InDir_between (d m x : DirEntry) :
  InDir x d = true -> le d m -> le m x -> InDir m d = true.
Proof.
  unfold InDir, HasPrefix, Less. intros H Hdm Hmx.
  apply andb_true_iff in H as [Hd Hp]. rewrite Hd. simpl.
  now apply prefix_between with (Path x).
Qed.

Lemma collapsed_snoc (l : DirList) (x : DirEntry) :
  collapsed l -> Forall (fun d => InDir x d = false) l -> collapsed (l ++ [x]).
Proof.
  unfold collapsed. induction 1 as [|y l Hy Hl IH]; intros Hx; simpl.
  - repeat constructor.
  - inversion Hx as [|? ? Hxy Hxl]; subst. constructor; [|auto].
    apply Forall_app. split; [exact Hy|]. repeat constructor. exact Hxy.
Qed.

Lemma collapsed_last (pre : DirList) (m : DirEntry) :
  collapsed (pre ++ [m]) -> Forall (fun d => InDir m d = false) pre.
Proof.
  unfold collapsed. induction pre as [|y pre IH]; simpl; [constructor|].
  intros H. inversion H as [|? ? Hy Hl]; subst.
  constructor; [|auto]. apply Forall_app in Hy as [_ Hy]. now inversion Hy.
Qed.

(** One candidate, not below the entries taken so far, keeps the list a
    collapsed subsequence. *)
Lemma push_candidate (a wp : DirList) (w : DirEntry) :
  StronglySorted le (wp ++ [w]) -> subseq a wp -> collapsed a ->
  subseq (appendEntry a w) (wp ++ [w]) /\ collapsed (appendEntry a w).
Proof.
  intros Hs Ha Hc.
  destruct (appendEntry_either a w)
    as [(pre & d & -> & Hi & ->)|[(-> & ->)|(pre & d & -> & Hi & ->)]].
  - split; [now apply subseq_snoc_skip|exact Hc].
  - split; [apply (subseq_snoc_take [] wp), subseq_nil_l|repeat constructor].
  - split; [now apply subseq_snoc_take|].
    apply collapsed_snoc; [exact Hc|].
    assert (Hle : Forall (fun y => le y w) (pre ++ [d]))
      by (apply subseq_Forall with wp; [exact Ha|now apply StronglySorted_snoc]).
    assert (Hsa : StronglySorted le (pre ++ [d]))
      by (apply subseq_strongly with wp; [exact Ha|now apply StronglySorted_app_l in Hs]).
    apply Forall_app. split; [|repeat constructor; exact Hi].
    pose proof (collapsed_last _ _ Hc) as Hd.
    pose proof (StronglySorted_snoc _ _ Hsa) as Hpd.
    apply Forall_app in Hle as [_ Hdw]. inversion Hdw as [|? ? Hdw' _]; subst.
    rewrite Forall_forall in Hd, Hpd |- *. intros y Hy.
    destruct (InDir w y) eqn:E; [|reflexivity].
    pose proof (InDir_between y d w E (Hpd y Hy) Hdw') as C.
    rewrite (Hd y Hy) in C. discriminate C.
Qed.

(** *** The loop and the drains keep both results collapsed subsequences *)

Lemma Diff_step_keeps (want0 ours0 : DirList) (s s' : DiffState) (wp op : DirList) :
  StronglySorted le want0 -> StronglySorted le ours0 ->
  Diff_step s = Some s' ->
  want0 = wp ++ want s -> ours0 = op ++ ours s ->
  subseq (add s) wp /\ collapsed (add s) ->
  subseq (remove s) op /\ collapsed (remove s) ->
  exists wp' op',
    want0 = wp' ++ want s' /\ ours0 = op' ++ ours s' /\
    (subseq (add s') wp' /\ collapsed (add s')) /\
    (subseq (remove s') op' /\ collapsed (remove s')).
Proof.
  intros Hw Ho Hstep Ew Eo [Ha Hca] [Hr Hcr]. unfold Diff_step in Hstep.
  destruct (ours s) as [|o ours'] eqn:Eos; [discriminate|].
  destruct (want s) as [|w want'] eqn:Ews; [discriminate|].
  assert (Ew' : want0 = (wp ++ [w]) ++ want') by (now rewrite <- app_assoc).
  assert (Eo' : ours0 = (op ++ [o]) ++ ours') by (now rewrite <- app_assoc).
  assert (Hpw : subseq (appendEntry (add s) w) (wp ++ [w]) /\
                collapsed (appendEntry (add s) w)).
  { apply push_candidate; auto. rewrite Ew' in Hw. now apply StronglySorted_app_l in Hw. }
  assert (Hpo : subseq (appendEntry (remove s) o) (op ++ [o]) /\
                collapsed (appendEntry (remove s) o)).
  { apply push_candidate; auto. rewrite Eo' in Ho. now apply StronglySorted_app_l in Ho. }
  assert (Hsw : subseq (add s) (wp ++ [w])) by now apply subseq_snoc_skip.
  assert (Hso : subseq (remove s) (op ++ [o])) by now apply subseq_snoc_skip.
  destruct (Path o ?= Path w)%string.
  - destruct (negb (Bool.eqb (IsDir o) (IsDir w)));
      [|destruct (SHA1 o =? SHA1 w)%string];
      injection Hstep as <-; exists (wp ++ [w]), (op ++ [o]); simpl; auto.
  - injection Hstep as <-. exists wp, (op ++ [o]). simpl. auto.
  - injection Hstep as <-. exists (wp ++ [w]), op. simpl. auto.
Qed.

Lemma Diff_loop_keeps (want0 ours0 : DirList) (fuel : nat) :
  StronglySorted le want0 -> StronglySorted le ours0 ->
  forall (s : DiffState) (wp op : DirList),
  want0 = wp ++ want s -> ours0 = op ++ ours s ->
  subseq (add s) wp /\ collapsed (add s) ->
  subseq (remove s) op /\ collapsed (remove s) ->
  exists wp' op',
    want0 = wp' ++ want (Diff_loop fuel s) /\ ours0 = op' ++ ours (Diff_loop fuel s) /\
    (subseq (add (Diff_loop fuel s)) wp' /\ collapsed (add (Diff_loop fuel s))) /\
    (subseq (remove (Diff_loop fuel s)) op' /\ collapsed (remove (Diff_loop fuel s))).
Proof.
  intros Hw Ho. induction fuel as [|n IH]; intros s wp op Ew Eo Ha Hr; simpl.
  - exists wp, op. auto.
  - destruct (Diff_step s) as [s'|] eqn:E; [|exists wp, op; auto].
    destruct (Diff_step_keeps _ _ _ _ _ _ Hw Ho E Ew Eo Ha Hr)
      as (wp' & op' & Ew' & Eo' & Ha' & Hr').
    now apply IH with wp' op'.
Qed.

Lemma drain_keeps (rest : DirList) :
  forall a wp : DirList,
  StronglySorted le (wp ++ rest) -> subseq a wp -> collapsed a ->
  subseq (drain a rest) (wp ++ rest) /\ collapsed (drain a rest).
Proof.
  unfold drain. induction rest as [|x rest IH]; intros a wp Hs Ha Hc; simpl.
  - rewrite app_nil_r. auto.
  - assert (E : wp ++ x :: rest = (wp ++ [x]) ++ rest) by (now rewrite <- app_assoc).
    rewrite E in *.
    destruct (push_candidate a wp x) as [Ha' Hc']; auto.
    now apply StronglySorted_app_l in Hs.
Qed.

Lemma Diff_sorted_keeps (ours0 want0 : DirList) :
  ascending ours0 -> ascending want0 ->
  (subseq (fst (Diff_sorted ours0 want0)) want0 /\
   collapsed (fst (Diff_sorted ours0 want0))) /\
  (subseq (snd (Diff_sorted ours0 want0)) ours0 /\
   collapsed (snd (Diff_sorted ours0 want0))).
Proof.
  intros Ho Hw. apply ascending_strongly in Ho, Hw.
  unfold Diff_sorted. cbv zeta.
  assert (H0 : subseq [] [] /\ collapsed []) by (split; constructor).
  destruct (Diff_loop_keeps want0 ours0
              (Diff_fuel (mkDiff ours0 want0 [] [])) Hw Ho
              (mkDiff ours0 want0 [] []) [] [] eq_refl eq_refl H0 H0)
    as (wp & op & Ew & Eo & [Ha Hca] & [Hr Hcr]).
  remember (Diff_loop (Diff_fuel (mkDiff ours0 want0 [] [])) (mkDiff ours0 want0 [] []))
    as s' eqn:Es. clear Es. simpl.
  split.
  - rewrite Ew in Hw. pose proof (drain_keeps _ _ _ Hw Ha Hca) as H.
    now rewrite <- Ew in H.
  - rewrite Eo in Ho. pose proof (drain_keeps _ _ _ Ho Hr Hcr) as H.
    now rewrite <- Eo in H.
Qed.

(** Both results of [Diff] are parts of its sorted arguments: the add list is
    the sorted [want] with entries left out, the remove list the sorted [ours]
    with entries left out. So an entry of the add list is an entry of [want]
    (path, flag and hash), an entry of the remove list is an entry of [ours],
    and both lists are in ascending order of path. *)
Theorem Diff_results_from_arguments (ours0 want0 : DirList) :
  let (add_, remove_) := Diff ours0 want0 in
  subseq add_ (sort_Sort want0) /\ subseq remove_ (sort_Sort ours0) /\
  (forall e, In e add_ -> In e want0) /\
  (forall e, In e remove_ -> In e ours0) /\
  ascending add_ /\ ascending remove_.
Proof.
  destruct (Diff_sorted_keeps (sort_Sort ours0) (sort_Sort want0)
              (sort_Sort_ascending _) (sort_Sort_ascending _))
    as [[Ha _] [Hr _]].
  unfold Diff. destruct (Diff_sorted _ _) as [add_ remove_]. simpl in Ha, Hr.
  repeat split; auto.
  - intros e He. apply (Permutation_in e (Permutation_sym (sort_Sort_perm want0))).
    now apply subseq_In with add_.
  - intros e He. apply (Permutation_in e (Permutation_sym (sort_Sort_perm ours0))).
    now apply subseq_In with remove_.
  - apply StronglySorted_Sorted, subseq_strongly with (sort_Sort want0); auto.
    apply ascending_strongly, sort_Sort_ascending.
  - apply StronglySorted_Sorted, subseq_strongly with (sort_Sort ours0); auto.
    apply ascending_strongly, sort_Sort_ascending.
Qed.

(** Directory collapsing, as the code does it: in each result of [Diff] no
    entry passes the test [InDir] against any entry before it (not only the
    one just before), and so none lies beneath an earlier directory of the
    same list. *)
Theorem Diff_results_collapsed (ours0 want0 : DirList) :
  let (add_, remove_) := Diff ours0 want0 in
  collapsed add_ /\ collapsed remove_ /\
  ForallOrdPairs (fun d e => beneath e d = false) add_ /\
  ForallOrdPairs (fun d e => beneath e d = false) remove_.
Proof.
  destruct (Diff_sorted_keeps (sort_Sort ours0) (sort_Sort want0)
              (sort_Sort_ascending _) (sort_Sort_ascending _))
    as [[_ Ha] [_ Hr]].
  unfold Diff. destruct (Diff_sorted _ _) as [add_ remove_]. simpl in Ha, Hr.
  assert (Hb : forall l, collapsed l -> ForallOrdPairs (fun d e => beneath e d = false) l).
  { unfold collapsed. induction 1 as [|d l Hd Hl IH]; constructor; [|exact IH].
    rewrite Forall_forall in Hd |- *. intros e He.
    destruct (beneath e d) eqn:E; [|reflexivity].
    apply beneath_InDir in E. rewrite (Hd e He) in E. discriminate E. }
  auto.
Qed.

End DiffResult.

Section DiffOrder.

Import flexdev.

Local Abbreviation le := (fun a b : DirEntry => Less b a = false).
Local Abbreviation lt := (fun a b : DirEntry => Less a b = true).

Lemma strictly_of_NoDup (l : DirList) :
  ascending l -> NoDup (map Path l) -> StronglySorted lt l.
Proof.
  intros Ha. apply ascending_strongly in Ha.
  induction Ha as [|x l Hs IH Hx]; intros Hn; [constructor|].
  simpl in Hn. apply NoDup_cons_iff in Hn as [Hnx Hn].
  constructor; [auto|].
  rewrite Forall_forall in Hx |- *. intros y Hy.
  unfold Less in *. destruct (Path x <? Path y)%string eqn:E; [reflexivity|].
  destruct Hnx. rewrite (ltb_total _ _ E (Hx y Hy)). now apply in_map.
Qed.

Lemma strictly_strongly (l : DirList) : strictly_ascending l -> StronglySorted lt l.
Proof.
  apply Sorted_StronglySorted. intros a b c. unfold Less. apply ltb_trans.
Qed.

(** Two lists in strictly ascending order with the same entries are the same
    list. *)
Lemma strictly_sorted_unique (l1 : DirList) :
  forall l2, StronglySorted lt l1 -> StronglySorted lt l2 ->
  Permutation l1 l2 -> l1 = l2.
Proof.
  induction l1 as [|x r1 IH]; intros l2 H1 H2 Hp.
  - now apply Permutation_nil in Hp.
  - destruct l2 as [|y r2]; [now apply Permutation_sym, Permutation_nil in Hp|].
    apply StronglySorted_inv in H1 as [H1 Hx], H2 as [H2 Hy].
    rewrite Forall_forall in Hx, Hy.
    assert (E : x = y).
    { destruct (Permutation_in x Hp (or_introl eq_refl)) as [E|Hin]; [now symmetry|].
      destruct (Permutation_in y (Permutation_sym Hp) (or_introl eq_refl)) as [E|Hin'];
        [exact E|].
      pose proof (Hy x Hin) as A. pose proof (Hx y Hin') as B.
      apply Less_asym in A. congruence. }
    subst y. f_equal. apply IH; auto. now apply Permutation_cons_inv with x.
Qed.

Lemma sort_Sort_strictly (l : DirList) :
  NoDup (map Path l) -> StronglySorted lt (sort_Sort l).
Proof.
  intros H. apply strictly_of_NoDup; [apply sort_Sort_ascending|].
  apply Permutation_NoDup with (map Path l); [|exact H].
  apply Permutation_map, sort_Sort_perm.
Qed.

Lemma sort_Sort_perm_eq (l l' : DirList) :
  NoDup (map Path l) -> Permutation l l' -> sort_Sort l = sort_Sort l'.
Proof.
  intros Hn Hp. apply strictly_sorted_unique.
  - now apply sort_Sort_strictly.
  - apply sort_Sort_strictly.
    apply Permutation_NoDup with (map Path l); [now apply Permutation_map|exact Hn].
  - rewrite <- (sort_Sort_perm l), <- (sort_Sort_perm l'). exact Hp.
Qed.

(** The order in which the entries of a snapshot are listed does not matter:
    two listings of the same entries, with no path twice, give the same
    diff. *)
Theorem Diff_order_independent (ours0 ours1 want0 want1 : DirList) :
  NoDup (map Path ours0) -> NoDup (map Path want0) ->
  Permutation ours0 ours1 -> Permutation want0 want1 ->
  Diff ours0 want0 = Diff ours1 want1.
Proof.
  intros Ho Hw Po Pw. unfold Diff.
  now rewrite (sort_Sort_perm_eq _ _ Ho Po), (sort_Sort_perm_eq _ _ Hw Pw).
Qed.

Lemma Diff_order_independent_witness :
  Diff [fileEntry "b" "1"; dirEntry "a"; fileEntry "a/x" "2"]
       [fileEntry "c" "3"; fileEntry "b" "4"]
  = Diff [dirEntry "a"; fileEntry "a/x" "2"; fileEntry "b" "1"]
         [fileEntry "b" "4"; fileEntry "c" "3"].
Proof.
  apply Diff_order_independent.
  - repeat constructor; simpl; intuition discriminate.
  - repeat constructor; simpl; intuition discriminate.
  - apply (Permutation_cons_app [dirEntry "a"; fileEntry "a/x" "2"] []).
    rewrite app_nil_r. apply Permutation_refl.
  - apply perm_swap.
Defined.

End DiffOrder.

Section DiffFlat.

Import flexdev.

Local Abbreviation lt := (fun a b : DirEntry => Less a b = true).

Lemma ltb_irrefl (s : string) : (s <? s)%string = false.
Proof. unfold String.ltb. now rewrite compare_refl. Qed.

Lemma appendEntry_flat (l : DirList) (e : DirEntry) :
  flat l -> appendEntry l e = l ++ [e].
Proof.
  intros Hl.
  destruct (appendEntry_either l e)
    as [(pre & d & -> & Hi & _)|[(-> & ->)|(pre & d & -> & _ & ->)]]; auto.
  apply Forall_app in Hl as [_ Hd]. inversion Hd as [|? ? Hd' _]; subst.
  unfold InDir in Hi. rewrite Hd' in Hi. discriminate Hi.
Qed.

Lemma drain_flat (rest : DirList) :
  forall a, flat a -> flat rest -> drain a rest = a ++ rest.
Proof.
  unfold drain. induction rest as [|x rest IH]; intros a Ha Hr; simpl.
  - now rewrite app_nil_r.
  - inversion Hr as [|? ? Hx Hr']; subst.
    rewrite appendEntry_flat by exact Ha.
    rewrite IH; [now rewrite <- app_assoc|apply Forall_app; split; auto|exact Hr'].
Qed.

Lemma no_same_file (w : DirEntry) (l : DirList) :
  Forall (fun o => Path o <> Path w) l -> existsb (same_file w) l = false.
Proof.
  induction 1 as [|o l Ho Hl IH]; simpl; [reflexivity|].
  rewrite IH, orb_false_r. unfold same_file.
  apply not_eq_sym in Ho. apply String.eqb_neq in Ho. now rewrite Ho.
Qed.

Lemma no_path (p : string) (l : DirList) :
  Forall (fun w => Path w <> p) l -> has_path l p = false.
Proof.
  unfold has_path. induction 1 as [|w l Hw Hl IH]; simpl; [reflexivity|].
  rewrite IH, orb_false_r. now apply String.eqb_neq.
Qed.

Lemma above_differs (x : DirEntry) (l : DirList) (p : string) :
  Forall (lt x) l -> (Path x <? p)%string = false ->
  Forall (fun y => Path y <> p) l.
Proof.
  intros Hl Hp. rewrite Forall_forall in Hl |- *. intros y Hy E. subst p.
  specialize (Hl y Hy). unfold Less in Hl. congruence.
Qed.

Lemma filter_head (f : DirEntry -> bool) (x : DirEntry) (l : DirList) :
  filter f (x :: l) = if f x then x :: filter f l else filter f l.
Proof. reflexivity. Qed.

Lemma filter_true (f : DirEntry -> bool) (l : DirList) :
  (forall x, In x l -> f x = true) -> filter f l = l.
Proof.
  induction l as [|x l IH]; intros H; simpl; [reflexivity|].
  rewrite (H x (or_introl eq_refl)), IH; auto. intros y Hy. apply H. now right.
Qed.

(** On sorted lists of files with no path twice, the merge loop and the
    drains compute the two differences. *)
Ltac side :=
  simpl;
  first [ assumption
        | apply Forall_app; split; [assumption|constructor; [assumption|constructor]]
        | constructor; assumption ].

Lemma Diff_loop_flat (fuel : nat) :
  forall s : DiffState,
  Diff_fuel s <= fuel ->
  flat (ours s) -> flat (want s) -> flat (add s) -> flat (remove s) ->
  StronglySorted lt (ours s) -> StronglySorted lt (want s) ->
  drain (add (Diff_loop fuel s)) (want (Diff_loop fuel s))
  = add s ++ filter (fun w => negb (existsb (same_file w) (ours s))) (want s) /\
  drain (remove (Diff_loop fuel s)) (ours (Diff_loop fuel s))
  = remove s ++ filter (fun o => negb (has_path (want s) (Path o))) (ours s).
Proof.
  assert (Stop : forall s, ours s = [] \/ want s = [] ->
            flat (ours s) -> flat (want s) -> flat (add s) -> flat (remove s) ->
            drain (add s) (want s)
            = add s ++ filter (fun w => negb (existsb (same_file w) (ours s))) (want s) /\
            drain (remove s) (ours s)
            = remove s ++ filter (fun o => negb (has_path (want s) (Path o))) (ours s)).
  { intros s H Fo Fw Fa Fr. rewrite !drain_flat by assumption.
    destruct H as [H|H]; rewrite H in *; simpl.
    - split; [|reflexivity]. f_equal. symmetry. now apply filter_true.
    - split; [reflexivity|]. f_equal. symmetry. now apply filter_true. }
  induction fuel as [|n IH]; intros s Hf Fo Fw Fa Fr So Sw.
  - simpl. apply Stop; auto. unfold Diff_fuel in Hf.
    destruct (ours s); [now left|simpl in Hf; lia].
  - simpl. destruct (Diff_step s) as [s1|] eqn:E;
      [|apply Stop; auto; now apply Diff_step_None].
    pose proof (Diff_step_fuel _ _ E) as Hlt.
    unfold Diff_step in E.
    destruct (ours s) as [|o ours'] eqn:Eo; [discriminate|].
    destruct (want s) as [|w want'] eqn:Ew; [discriminate|].
    inversion Fo as [|? ? Fo1 Fo']; subst.
    inversion Fw as [|? ? Fw1 Fw']; subst.
    apply StronglySorted_inv in So as [So' Ho], Sw as [Sw' Hw].
    rewrite Fo1, Fw1 in E. simpl in E.
    destruct (compare_tests (Path o) (Path w)) as (_ & Hl & Hg).
    destruct (Path o ?= Path w)%string eqn:Ec.
    + assert (He : Path o = Path w) by (now apply String.compare_eq_iff).
      assert (Hwo : Forall (fun y => Path y <> Path o) want').
      { apply above_differs with w; [exact Hw|]. rewrite He. apply ltb_irrefl. }
      assert (How : Forall (fun y => Path y <> Path w) ours').
      { apply above_differs with o; [exact Ho|]. rewrite He. apply ltb_irrefl. }
      assert (Tw : filter (fun w0 => negb (existsb (same_file w0) (o :: ours'))) want'
                   = filter (fun w0 => negb (existsb (same_file w0) ours')) want').
      { apply filter_ext_in. intros w0 H0. simpl.
        rewrite Forall_forall in Hwo. specialize (Hwo w0 H0).
        unfold same_file at 1. apply String.eqb_neq in Hwo. now rewrite Hwo. }
      assert (To : filter (fun o0 => negb (has_path (w :: want') (Path o0))) ours'
                   = filter (fun o0 => negb (has_path want' (Path o0))) ours').
      { apply filter_ext_in. intros o0 H0. unfold has_path. simpl.
        rewrite Forall_forall in How. specialize (How o0 H0).
        apply not_eq_sym in How. apply String.eqb_neq in How. now rewrite How. }
      assert (Ro : has_path (w :: want') (Path o) = true).
      { unfold has_path. simpl. rewrite He, String.eqb_refl. reflexivity. }
      cbn [filter]. rewrite Ro. cbn [negb].
      destruct (SHA1 o =? SHA1 w)%string eqn:Eh; injection E as <-.
      * destruct (IH (mkDiff ours' want' (add s) (remove s))) as [IHa IHr];
          [unfold Diff_fuel in *; simpl in *; lia|side..|].
        simpl in IHa, IHr. rewrite IHa, IHr, Tw, To.
        assert (Rw : same_file w o = true).
        { unfold same_file. rewrite He, String.eqb_refl, String.eqb_sym, Eh. reflexivity. }
        cbn [existsb]. rewrite Rw. simpl. auto.
      * rewrite appendEntry_flat in * by exact Fa.
        destruct (IH (mkDiff ours' want' (add s ++ [w]) (remove s))) as [IHa IHr];
          [unfold Diff_fuel in *; simpl in *; lia|side..|].
        simpl in IHa, IHr. rewrite IHa, IHr, Tw, To.
        assert (Rw : same_file w o = false).
        { unfold same_file. rewrite String.eqb_sym in Eh. rewrite Eh. apply andb_false_r. }
        cbn [existsb]. rewrite Rw, (no_same_file w ours' How). simpl.
        rewrite <- app_assoc. auto.
    + pose proof (proj2 Hl eq_refl) as Hlt'.
      injection E as <-. rewrite appendEntry_flat in * by exact Fr.
      destruct (IH (mkDiff ours' (w :: want') (add s) (remove s ++ [o]))) as [IHa IHr];
        [unfold Diff_fuel in *; simpl in *; rewrite ?Eo, ?Ew in *; simpl in *; lia|side..|].
      cbn [ours want add remove] in IHa, IHr. rewrite IHa, IHr.
      assert (Hwo : Forall (fun y => Path y <> Path o) (w :: want')).
      { constructor; [apply not_eq_sym; now apply ltb_neq|].
        rewrite Forall_forall in Hw |- *. intros y Hy E'.
        specialize (Hw y Hy). unfold Less in Hw. rewrite E' in Hw.
        pose proof (ltb_trans _ _ _ Hlt' Hw) as C. now apply ltb_neq in C. }
      split.
      * f_equal. apply filter_ext_in. intros w0 H0. cbn [existsb].
        rewrite Forall_forall in Hwo. specialize (Hwo w0 H0).
        unfold same_file at 2. apply String.eqb_neq in Hwo. now rewrite Hwo.
      * rewrite (filter_head _ o ours'), (no_path _ _ Hwo). cbn [negb].
        now rewrite <- app_assoc.
    + pose proof (proj2 Hg eq_refl) as Hgt.
      injection E as <-. rewrite appendEntry_flat in * by exact Fa.
      destruct (IH (mkDiff (o :: ours') want' (add s ++ [w]) (remove s))) as [IHa IHr];
        [unfold Diff_fuel in *; simpl in *; rewrite ?Eo, ?Ew in *; simpl in *; lia|side..|].
      cbn [ours want add remove] in IHa, IHr. rewrite IHa, IHr.
      assert (How : Forall (fun y => Path y <> Path w) (o :: ours')).
      { constructor; [apply not_eq_sym; now apply ltb_neq|].
        rewrite Forall_forall in Ho |- *. intros y Hy E'.
        specialize (Ho y Hy). unfold Less in Ho. rewrite E' in Ho.
        pose proof (ltb_trans _ _ _ Hgt Ho) as C. now apply ltb_neq in C. }
      split.
      * rewrite (filter_head _ w want'), (no_same_file _ _ How). cbn [negb].
        now rewrite <- app_assoc.
      * f_equal. apply filter_ext_in. intros o0 H0. unfold has_path. cbn [existsb].
        rewrite Forall_forall in How. specialize (How o0 H0).
        apply not_eq_sym in How. apply String.eqb_neq in How. now rewrite How.
Qed.

Lemma existsb_perm (f : DirEntry -> bool) (l l' : DirList) :
  Permutation l l' -> existsb f l = existsb f l'.
Proof.
  induction 1 as [|x l l' H IH|x y l|l l' l'' H1 IH1 H2 IH2]; simpl.
  - reflexivity.
  - now rewrite IH.
  - now rewrite !orb_assoc, (orb_comm (f y)).
  - congruence.
Qed.

Lemma same_file_flat (a b : DirEntry) :
  IsDir a = false -> IsDir b = false -> same_file a b = true <-> a = b.
Proof.
  intros Ha Hb. unfold same_file. rewrite andb_true_iff, !String.eqb_eq.
  destruct a, b; simpl in *; subst. split; [intros [-> ->]; reflexivity|].
  now intros [= -> ->].
Qed.

Lemma Diff_flat_filters (ours0 want0 : DirList) :
  flat ours0 -> flat want0 ->
  NoDup (map Path ours0) -> NoDup (map Path want0) ->
  Diff ours0 want0
  = (filter (fun w => negb (existsb (same_file w) ours0)) (sort_Sort want0),
     filter (fun o => negb (has_path want0 (Path o))) (sort_Sort ours0)).
Proof.
  intros Fo Fw No Nw. unfold Diff, Diff_sorted. cbv zeta.
  assert (Fso : flat (sort_Sort ours0)).
  { unfold flat in *. rewrite Forall_forall in *. intros e He. apply Fo.
    apply (Permutation_in e (Permutation_sym (sort_Sort_perm ours0)) He). }
  assert (Fsw : flat (sort_Sort want0)).
  { unfold flat in *. rewrite Forall_forall in *. intros e He. apply Fw.
    apply (Permutation_in e (Permutation_sym (sort_Sort_perm want0)) He). }
  destruct (Diff_loop_flat
              (Diff_fuel (mkDiff (sort_Sort ours0) (sort_Sort want0) [] []))
              (mkDiff (sort_Sort ours0) (sort_Sort want0) [] [])) as [Ha Hr];
    simpl; auto; try constructor; try (now apply sort_Sort_strictly).
  rewrite Ha, Hr. simpl. f_equal; apply filter_ext; intros e; f_equal.
  - apply existsb_perm, Permutation_sym, sort_Sort_perm.
  - apply existsb_perm, Permutation_sym, sort_Sort_perm.
Qed.

Lemma Diff_flat_members (ours0 want0 : DirList) :
  flat ours0 -> flat want0 ->
  NoDup (map Path ours0) -> NoDup (map Path want0) ->
  (forall e, In e (fst (Diff ours0 want0)) <-> In e want0 /\ ~ In e ours0) /\
  (forall e, In e (snd (Diff ours0 want0))
             <-> In e ours0 /\ forall w, In w want0 -> Path w <> Path e).
Proof.
  intros Fo Fw No Nw. rewrite (Diff_flat_filters _ _ Fo Fw No Nw). simpl.
  unfold flat in *. rewrite Forall_forall in Fo, Fw.
  split; intros e; rewrite filter_In, negb_true_iff.
  - split; intros [He Hn].
    + apply (Permutation_in e (Permutation_sym (sort_Sort_perm want0))) in He.
      split; [exact He|]. intros Hin.
      assert (C : existsb (same_file e) ours0 = true).
      { apply existsb_exists. exists e. split; [exact Hin|].
        apply same_file_flat; auto. }
      congruence.
    + split; [now apply (Permutation_in e (sort_Sort_perm want0))|].
      destruct (existsb (same_file e) ours0) eqn:E; [|reflexivity].
      apply existsb_exists in E as (o & Ho & Hs).
      apply same_file_flat in Hs; auto. subst o. contradiction.
  - split; intros [He Hn].
    + apply (Permutation_in e (Permutation_sym (sort_Sort_perm ours0))) in He.
      split; [exact He|]. intros w Hw E.
      assert (C : has_path want0 (Path e) = true).
      { apply existsb_exists. exists w. split; [exact Hw|]. now apply String.eqb_eq. }
      congruence.
    + split; [now apply (Permutation_in e (sort_Sort_perm ours0))|].
      destruct (has_path want0 (Path e)) eqn:E; [|reflexivity].
      apply existsb_exists in E as (w & Hw & Hs).
      apply String.eqb_eq in Hs. now destruct (Hn w Hw).
Qed.

(** For snapshots of files only, with no path twice, [Diff] computes the two
    differences: the add list holds exactly the entries of [want] that [ours]
    does not hold (a new path, or a known path with another hash), the remove
    list exactly the entries of [ours] whose path [want] does not have. *)
Theorem Diff_flat (ours0 want0 : DirList) :
  flat ours0 -> flat want0 ->
  NoDup (map Path ours0) -> NoDup (map Path want0) ->
  (forall e, In e (fst (Diff ours0 want0)) <-> In e want0 /\ ~ In e ours0) /\
  (forall e, In e (snd (Diff ours0 want0))
             <-> In e ours0 /\ forall w, In w want0 -> Path w <> Path e).
Proof. apply Diff_flat_members. Qed.

Lemma Diff_flat_witness :
  In (fileEntry "b.go" "2") (fst (Diff [fileEntry "old.go" "0"; fileEntry "b.go" "1"]
                                       [fileEntry "b.go" "2"; fileEntry "a.go" "3"])) /\
  In (fileEntry "old.go" "0") (snd (Diff [fileEntry "old.go" "0"; fileEntry "b.go" "1"]
                                         [fileEntry "b.go" "2"; fileEntry "a.go" "3"])).
Proof.
  assert (H : forall a b : DirEntry, NoDup (map Path [a; b]) <-> Path a <> Path b).
  { intros a b. simpl. split.
    - intros H E. inversion H as [|? ? N _]; subst. apply N. now left.
    - intros N. repeat constructor; simpl; intuition. }
  destruct (Diff_flat [fileEntry "old.go" "0"; fileEntry "b.go" "1"]
                      [fileEntry "b.go" "2"; fileEntry "a.go" "3"]) as [Ha Hr].
  - repeat constructor.
  - repeat constructor.
  - apply H. discriminate.
  - apply H. discriminate.
  - split.
    + apply Ha. split; [now left|]. simpl. intuition discriminate.
    + apply Hr. split; [now left|]. simpl. intros w [<-|[<-|[]]]; discriminate.
Defined.

End DiffFlat.

(** ** More on the build lifecycle and the handlers *)

Section EnvFacts.

Import flexdev.
Import server.

Lemma prefix_self_app (p s : string) : prefix p (p ++ s) = true.
Proof.
  induction p as [|c p IH]; simpl; [apply prefix_nil|].
  destruct (ascii_dec c c) as [_|N]; [exact IH|now destruct N].
Qed.

Lemma filter_idem {A : Type} (f : A -> bool) (l : list A) :
  filter f (filter f l) = filter f l.
Proof.
  induction l as [|x l IH]; simpl; [reflexivity|].
  destruct (f x) eqn:E; simpl; rewrite ?E, IH; reflexivity.
Qed.

Lemma env_own_binding (k v : string) : HasPrefix (k ++ "=" ++ v) (k ++ "=") = true.
Proof.
  unfold HasPrefix.
  replace (k ++ "=" ++ v)%string with ((k ++ "=") ++ v)%string.
  - apply prefix_self_app.
  - induction k as [|c k IH]; simpl; [reflexivity|now rewrite IH].
Qed.

Lemma env_binds_once_helper (e : list string) (k v : string) :
  filter (fun entry => HasPrefix entry (k ++ "=")) (env e k v) = [(k ++ "=" ++ v)%string] /\
  filter (fun entry => negb (HasPrefix entry (k ++ "="))) (env e k v)
  = filter (fun entry => negb (HasPrefix entry (k ++ "="))) e.
Proof.
  unfold env. rewrite !filter_app. cbn [filter]. rewrite env_own_binding. cbn [negb]. split.
  - replace (filter _ (filter _ e)) with (@nil string); [reflexivity|].
    induction e as [|x e IH]; cbn [filter]; [reflexivity|].
    destruct (HasPrefix x (k ++ "=")) eqn:E; cbn [negb filter]; rewrite ?E; exact IH.
  - rewrite app_nil_r. apply filter_idem.
Qed.

(** [env] binds a key once and last: the result ends with [k=v], no other
    entry of it starts with [k=], and the entries of the old environment that
    do not start with [k=] are all kept, in their order. *)
Theorem env_binds_once (e : list string) (k v : string) :
  last (env e k v) EmptyString = (k ++ "=" ++ v)%string /\
  filter (fun entry => HasPrefix entry (k ++ "=")) (env e k v) = [(k ++ "=" ++ v)%string] /\
  filter (fun entry => negb (HasPrefix entry (k ++ "="))) (env e k v)
  = filter (fun entry => negb (HasPrefix entry (k ++ "="))) e.
Proof. split; [unfold env; apply last_last|apply env_binds_once_helper]. Qed.

(** Binding a key again replaces the binding: the last write wins, and the
    environment is the one a single [env] with the last value gives. *)
Theorem env_last_write_wins (e : list string) (k v1 v2 : string) :
  env (env e k v1) k v2 = env e k v2.
Proof.
  unfold env at 1 3. f_equal.
  apply (proj2 (env_binds_once_helper e k v1)).
Qed.

End EnvFacts.

Section LifecycleMore.

Import flexdev.
Import server.

Variable W : World.

(** What [Start] returns, case by case. *)
Lemma Start_cases (b : Build) (b1 : Build) (err : option error) (t : trace) :
  Start W b = MReturn b1 err t ->
  (exists c p, err = None /\ cmdProcess c = Some p /\
     b1 = set_State (set_cmd (set_addr b (addr b1)) (Some c)) StateRunning /\
     net_Listen W = inl (addr b1) /\ cmd_Start W (mkCmd (Args c) (Dir c) (Env c) None) = inl p /\
     t = [Listen; Start_ (mkCmd (Args c) (Dir c) (Env c) None)]) \/
  (exists e, err = Some e /\ State b1 = State b /\ output b1 = output b /\ ID b1 = ID b).
Proof.
  unfold Start.
  destruct (net_Listen W) as [a|e] eqn:El.
  - cbv zeta. destruct (SplitHostPort W _) as [[h port]|e].
    + destruct (config_ (set_addr b a)) as [cfg|]; [|discriminate].
      destruct (cmd_Start W _) as [p|e] eqn:Es.
      * intros [= <- <- <-]. left. do 2 eexists. repeat split; try reflexivity.
        simpl. exact Es.
      * intros [= <- <- <-]. right. exists e. auto.
    + intros [= <- <- <-]. right. exists e. auto.
  - intros [= <- <- <-]. right. exists e. auto.
Qed.

(** [Start] moves the record to Running only when the listener, the port and
    the launch of the process all succeeded; when it returns an error the
    state, the log and the id are as before. *)
Theorem Start_state (b b1 : Build) (err : option error) (t : trace) :
  Start W b = MReturn b1 err t ->
  (err = None -> State b1 = StateRunning /\ In Listen t /\
                 exists c p, cmd b1 = Some c /\ cmdProcess c = Some p) /\
  (err <> None -> State b1 = State b /\ output b1 = output b /\ ID b1 = ID b).
Proof.
  intros H. destruct (Start_cases _ _ _ _ H)
    as [(c & p & -> & Hp & -> & _ & _ & ->)|(e & -> & Hs)].
  - split; [|congruence]. intros _. simpl. repeat split; auto. now exists c, p.
  - split; [discriminate|]. now intros _.
Qed.

(** A record that [Start] left Running can be stopped: [Stop] kills the
    process that was started, and takes neither its degraded branch nor a nil
    command. If the kill succeeds the record is Stopped; if it fails its error
    is returned and the record stays Running. *)
Theorem Start_then_Stop (b b1 : Build) (t : trace) :
  Start W b = MReturn b1 None t ->
  exists p,
    In (Kill p) (match Stop W b1 with MReturn _ _ t' | MPanic _ t' => t' end) /\
    (Process_Kill W p = None ->
       Stop W b1 = MReturn (set_State b1 StateStopped) None [Kill p]) /\
    (forall e, Process_Kill W p = Some e -> Stop W b1 = MReturn b1 (Some e) [Kill p]).
Proof.
  intros H. destruct (Start_cases _ _ _ _ H)
    as [(c & p & _ & Hp & -> & _ & _ & _)|(e & [=] & _)].
  exists p. unfold Stop. simpl. rewrite Hp.
  destruct (Process_Kill W p) as [e|]; repeat split; try discriminate; simpl; auto.
  now intros e' [= ->].
Qed.

(** When the compilation fails, [startBuildHandler] stops there: it answers
    500 with the error and the log so far as message, starts no listener and
    no process, and leaves the record in state Building. *)
Theorem startBuildHandler_build_failure (b : Build) (e : error) :
  snd (cmd_Run W (go_build_cmd W (set_State b StateBuilding))) = Some e ->
  exists b',
    startBuildHandler W (Some b)
    = HReturn (Some b')
        [Run (go_build_cmd W (set_State b StateBuilding));
         WriteHeader 500;
         WriteJSON (mkResponse 0 (Some ("Build failed: " ++ e)%string) None []
                               (output b') ("Build failed: " ++ e)%string)] /\
    State b' = StateBuilding /\
    output b' = (output b ++ fst (cmd_Run W (go_build_cmd W (set_State b StateBuilding))))%string.
Proof.
  intros H. unfold startBuildHandler, GoBuild. cbv zeta.
  destruct (cmd_Run W _) as [out err]. simpl in H. subst err.
  eexists. split; [reflexivity|]. split; reflexivity.
Qed.

Lemma GoBuild_either (b : Build) :
  let c := go_build_cmd W (set_State b StateBuilding) in
  exists out,
    (exists e, GoBuild W b
               = MReturn (set_output (set_State b StateBuilding) (output b ++ out))
                         (Some e) [Run c]) \/
    GoBuild W b
    = MReturn (set_State (set_output (set_State b StateBuilding) (output b ++ out)) StateBuilt)
              None [Run c].
Proof.
  cbv zeta. unfold GoBuild. cbv zeta.
  destruct (cmd_Run W _) as [out [e|]]; exists out; [left; now exists e|now right].
Qed.

Lemma Start_trace (b b1 : Build) (err : option error) (t : trace) :
  Start W b = MReturn b1 err t -> Forall (fun e => acts e = true) t.
Proof.
  unfold Start. destruct (net_Listen W) as [a|e].
  - cbv zeta. destruct (SplitHostPort W _) as [[h port]|e].
    + destruct (config_ _); [|discriminate].
      destruct (cmd_Start W _); intros [= <- <- <-]; repeat constructor.
    + intros [= <- <- <-]; repeat constructor.
  - intros [= <- <- <-]; repeat constructor.
Qed.

Lemma Start_no_panic (b : Build) (cfg : config) :
  config_ b = Some cfg -> forall b' t, Start W b <> MPanic b' t.
Proof.
  intros Hc b' t. unfold Start. destruct (net_Listen W) as [a|e]; [|discriminate].
  cbv zeta. destruct (SplitHostPort W _) as [[h port]|e]; [|discriminate].
  simpl. rewrite Hc. destruct (cmd_Start W _); discriminate.
Qed.

(** [startBuildHandler] leaves the record Running exactly when it has
    answered "App is running."; with a live record whose config is set it does
    not panic. *)
Theorem startBuildHandler_running (b : Build) (cfg : config) :
  config_ b = Some cfg ->
  exists b' t,
    startBuildHandler W (Some b) = HReturn (Some b') t /\
    (State b' = StateRunning
     <-> In (WriteJSON (response 0 None "App is running.")) t).
Proof.
  intros Hc. unfold startBuildHandler.
  destruct (GoBuild_either b) as [out [[e Eg]|Eg]]; rewrite Eg.
  - do 2 eexists. split; [reflexivity|]. simpl. split; [discriminate|].
    intros [H|[H|[H|[]]]]; discriminate.
  - set (b1 := set_State _ StateBuilt).
    destruct (Start W b1) as [b2 [e|] t2|b2 t2] eqn:Es.
    + do 2 eexists. split; [reflexivity|].
      pose proof (Start_trace _ _ _ _ Es) as Ht. rewrite Forall_forall in Ht.
      destruct (Start_cases _ _ _ _ Es) as [(c & p & [=] & _)|(e' & _ & Hs & _)].
      split; [rewrite Hs; discriminate|].
      simpl. rewrite in_app_iff. intros [H|[H|[H|[H|[]]]]]; try discriminate.
      apply Ht in H. discriminate.
    + do 2 eexists. split; [reflexivity|].
      destruct (Start_cases _ _ _ _ Es) as [(c & p & _ & _ & -> & _)|(e' & [=] & _)].
      split; [intros _|reflexivity].
      simpl. right. rewrite in_app_iff. right. now left.
    + now destruct (Start_no_panic b1 cfg Hc b2 t2).
Qed.

End LifecycleMore.

Section HandlersMore.

Import flexdev.
Import server.

Variable W : World.

Lemma In_WriteTo_acts (r : Response) (e : event) :
  In e (WriteTo r) -> acts e = false.
Proof.
  unfold WriteTo. rewrite in_app_iff.
  intros [H|[<-|[]]]; [|reflexivity].
  destruct (negb _); [destruct H as [<-|[]]; reflexivity|].
  destruct (Error r); [destruct H as [<-|[]]; reflexivity|destruct H].
Qed.

Lemma putFileHandler_slot (build : option Build) (r : PutRequest) :
  slot_of (putFileHandler W build r) = build.
Proof.
  unfold putFileHandler, bad_request. destruct (_ =? _)%string; [reflexivity|].
  destruct build as [b|]; [|reflexivity].
  destruct (negb _); [reflexivity|].
  destruct (_ =? _)%string; [reflexivity|].
  destruct (_ =? _)%string; [reflexivity|].
  destruct (put_body r); [|reflexivity].
  destruct (negb _); [reflexivity|].
  destruct (os_MkdirAll W _); [reflexivity|].
  destruct (ioutil_WriteFile W _ _); reflexivity.
Qed.

(** [putFileHandler] writes a file only for a request that names the live
    build and whose body has the hash it announces, and then writes the body
    to the announced name under the build directory, after making the
    directory; in every other case it touches nothing. It never changes the
    build slot. *)
Theorem putFileHandler_writes_verified (build : option Build) (r : PutRequest) :
  slot_of (putFileHandler W build r) = build /\
  forall e, In e (trace_of (putFileHandler W build r)) -> acts e = true ->
    exists b data,
      build = Some b /\ form_id r = ID b /\ form_id r <> "" /\
      form_filename r <> "" /\
      put_body r = inl data /\ sha1_hex W data = form_sha1 r /\
      (e = MkdirAll (filepath_Dir W (filepath_Join W (dir b) (form_filename r))) \/
       e = WriteFile (filepath_Join W (dir b) (form_filename r)) data).
Proof.
  unfold putFileHandler, bad_request.
  destruct (String.eqb_spec (form_id r) "") as [Ei|Ei];
    [split; [reflexivity|]; intros e H A; apply In_WriteTo_acts in H; congruence|].
  destruct build as [b|]; [|split; [reflexivity|intros e []]].
  destruct (String.eqb_spec (form_id r) (ID b)) as [Eb|Eb]; simpl negb; cbv iota;
    [|split; [reflexivity|]; intros e H A; apply In_WriteTo_acts in H; congruence].
  destruct (String.eqb_spec (form_filename r) "") as [Ef|Ef];
    [split; [reflexivity|]; intros e H A; apply In_WriteTo_acts in H; congruence|].
  destruct (String.eqb_spec (form_sha1 r) "") as [Eh|Eh];
    [split; [reflexivity|]; intros e H A; apply In_WriteTo_acts in H; congruence|].
  destruct (put_body r) as [data|err] eqn:Ebody;
    [|split; [reflexivity|]; intros e H A; apply In_WriteTo_acts in H; congruence].
  destruct (String.eqb_spec (sha1_hex W data) (form_sha1 r)) as [Es|Es]; simpl negb; cbv iota;
    [|split; [reflexivity|]; intros e H A; apply In_WriteTo_acts in H; congruence].
  destruct (os_MkdirAll W _) as [me|];
    [|destruct (ioutil_WriteFile W _ _) as [we|]];
    (split; [reflexivity|]); intros e H A; unfold trace_of in H;
    apply in_app_iff in H as [H|H];
    try (apply In_WriteTo_acts in H; congruence);
    exists b, data; repeat split; auto;
    simpl in H; intuition.
Qed.

Lemma removeFiles_events (d : string) (fs : list string) (e : event) :
  In e (fst (removeFiles W d fs)) ->
  exists f, In f fs /\ e = RemoveAll (filepath_Join W d f).
Proof.
  induction fs as [|f rest IH]; simpl; [intros []|].
  destruct (os_RemoveAll W _).
  - intros [<-|[]]. exists f. auto.
  - destruct (removeFiles W d rest) as [t r]. simpl in *.
    intros [<-|H]; [exists f; auto|].
    destruct (IH H) as (f' & Hf & ->). exists f'. auto.
Qed.

Lemma Diff_In (ours0 want0 : DirList) :
  (forall e, In e (fst (Diff ours0 want0)) -> In e want0) /\
  (forall e, In e (snd (Diff ours0 want0)) -> In e ours0).
Proof.
  destruct (Diff_sorted_keeps (sort_Sort ours0) (sort_Sort want0)
              (sort_Sort_ascending _) (sort_Sort_ascending _))
    as [[Ha _] [Hr _]].
  unfold Diff. split; intros e He.
  - apply (Permutation_in e (Permutation_sym (sort_Sort_perm want0))).
    now apply subseq_In with (fst (Diff_sorted (sort_Sort ours0) (sort_Sort want0))).
  - apply (Permutation_in e (Permutation_sym (sort_Sort_perm ours0))).
    now apply subseq_In with (snd (Diff_sorted (sort_Sort ours0) (sort_Sort want0))).
Qed.

Lemma Stop_trace (b b1 : Build) (err : option error) (t : trace) :
  Stop W b = MReturn b1 err t -> forall e, In e t -> exists p, e = Kill p.
Proof.
  unfold Stop. destruct (negb _); [intros [= <- <- <-] e []|].
  destruct (cmd b) as [c|]; [|discriminate].
  destruct (cmdProcess c) as [p|]; [|intros [= <- <- <-] e []].
  destruct (Process_Kill W p) as [ke|]; intros [= <- <- <-] e [<-|[]]; now exists p.
Qed.

(** What [createBuildHandler] does to the file tree comes from the diff: it
    removes only paths of entries that the listing of the build directory
    holds, and the files it asks for are paths of entries of the request.
    Apart from that it makes the build directory and, before anything else,
    kills the process of a running build. *)
Theorem createBuildHandler_touches_listed
    (build : option Build) (req : CreateBuildRequest) (ours0 : DirList) :
  ListDir W (packageDir W) = inl ours0 ->
  let res := createBuildHandler W build (Decoded req) in
  (forall e, In e (trace_of res) -> acts e = true ->
     (exists p, e = Kill p) \/ e = MkdirAll (packageDir W) \/
     exists o, In o ours0 /\ e = RemoveAll (filepath_Join W (packageDir W) (Path o))) /\
  (forall r f, In (WriteJSON r) (trace_of res) -> In f (NeedFiles r) ->
     exists w, In w (Files req) /\ f = Path w).
Proof.
  intros Hl. cbv zeta.
  assert (Body : forall bd t,
    (forall e, In e t -> exists p, e = Kill p) ->
    let res := createBuild_from_body W bd t (Decoded req) in
    (forall e, In e (trace_of res) -> acts e = true ->
       (exists p, e = Kill p) \/ e = MkdirAll (packageDir W) \/
       exists o, In o ours0 /\ e = RemoveAll (filepath_Join W (packageDir W) (Path o))) /\
    (forall r f, In (WriteJSON r) (trace_of res) -> In f (NeedFiles r) ->
       exists w, In w (Files req) /\ f = Path w)).
  { intros bd t Ht. cbv zeta.
    assert (Resp : forall code err msg r f,
              In (WriteJSON r) (WriteTo (response code err msg)) -> In f (NeedFiles r) -> False).
    { intros code err msg r f H Hf. unfold WriteTo, response in H.
      apply in_app_iff in H as [H|[H|[]]].
      - destruct (negb _); [destruct H as [H|[]]; discriminate|].
        simpl in H. destruct err; [destruct H as [H|[]]; discriminate|destruct H].
      - simpl in H. destruct err; injection H as <-; exact Hf. }
    assert (NoJSON : forall r, In (WriteJSON r) t -> False).
    { intros r H. destruct (Ht _ H). discriminate. }
    unfold createBuild_from_body.
    destruct (Nat.eqb _ 0);
      [simpl; split; [intros e H A|intros r f H Hf];
       apply in_app_iff in H as [H|H];
       [left; now apply Ht|apply In_WriteTo_acts in H; congruence
       |now destruct (NoJSON r)|now destruct (Resp _ _ _ _ _ H Hf)]|].
    destruct (Nat.eqb _ 0);
      [simpl; split; [intros e H A|intros r f H Hf];
       apply in_app_iff in H as [H|H];
       [left; now apply Ht|apply In_WriteTo_acts in H; congruence
       |now destruct (NoJSON r)|now destruct (Resp _ _ _ _ _ H Hf)]|].
    unfold createBuild_from_config.
    destruct (yaml_Unmarshal W _) as [cfg yerr].
    set (t1 := match yerr with Some _ => _ | None => t end).
    assert (Ht1 : (forall e, In e t1 -> acts e = true -> exists p, e = Kill p) /\
                  (forall r f, In (WriteJSON r) t1 -> In f (NeedFiles r) -> False)).
    { unfold t1. destruct yerr as [ye|].
      - split; [intros e H A|intros r f H Hf]; apply in_app_iff in H as [H|H].
        + now apply Ht.
        + apply In_WriteTo_acts in H. congruence.
        + now destruct (NoJSON r).
        + now destruct (Resp _ _ _ _ _ H Hf).
      - split; [intros e H _; now apply Ht|intros r f H _; now destruct (NoJSON r)]. }
    destruct Ht1 as [Ht1 Hj1]. clearbody t1.
    assert (Ht2 : (forall e, In e (t1 ++ [MkdirAll (packageDir W)]) -> acts e = true ->
                     (exists p, e = Kill p) \/ e = MkdirAll (packageDir W)) /\
                  (forall r f, In (WriteJSON r) (t1 ++ [MkdirAll (packageDir W)]) ->
                     In f (NeedFiles r) -> False)).
    { split; [intros e H A|intros r f H Hf]; apply in_app_iff in H as [H|[H|[]]].
      - left. now apply Ht1.
      - right. now symmetry.
      - now destruct (Hj1 r f).
      - discriminate. }
    destruct Ht2 as [Ht2 Hj2]. set (t2 := t1 ++ [MkdirAll (packageDir W)]) in *.
    clearbody t2.
    destruct (os_MkdirAll W _) as [me|].
    { simpl. split; [intros e H A|intros r f H Hf]; apply in_app_iff in H as [H|H].
      - destruct (Ht2 e H A); auto.
      - apply In_WriteTo_acts in H. congruence.
      - now destruct (Hj2 r f).
      - now destruct (Resp _ _ _ _ _ H Hf). }
    unfold filesNeeded. simpl dir. rewrite Hl. simpl clientFiles.
    destruct (Diff_In ours0 (Files req)) as [Hadd Hdel].
    destruct (Diff ours0 (Files req)) as [add_ del]. simpl in Hadd, Hdel.
    simpl dir.
    destruct (removeFiles W (packageDir W) (map Path del)) as [tr rerr] eqn:Er.
    assert (Htr : forall e, In e tr ->
              exists o, In o ours0 /\ e = RemoveAll (filepath_Join W (packageDir W) (Path o))).
    { intros e H. replace tr with (fst (removeFiles W (packageDir W) (map Path del)))
        in H by now rewrite Er.
      apply removeFiles_events in H as (f & Hf & ->).
      apply in_map_iff in Hf as (o & <- & Ho). exists o. auto. }
    destruct rerr as [re|]; simpl.
    - split; [intros e H A|intros r f H Hf];
        apply in_app_iff in H as [H|H]; try apply in_app_iff in H as [H|H].
      + destruct (Ht2 e H A); auto.
      + right; right. now apply Htr.
      + apply In_WriteTo_acts in H. congruence.
      + now destruct (Hj2 r f).
      + destruct (Htr _ H) as (o & _ & [=]).
      + now destruct (Resp _ _ _ _ _ H Hf).
    - split; [intros e H A|intros r f H Hf];
        apply in_app_iff in H as [H|H]; try apply in_app_iff in H as [H|H].
      + destruct (Ht2 e H A); auto.
      + right; right. now apply Htr.
      + apply In_WriteTo_acts in H. congruence.
      + now destruct (Hj2 r f).
      + destruct (Htr _ H) as (o & _ & [=]).
      + unfold WriteTo in H. simpl in H. destruct H as [H|[]].
        injection H as <-. simpl in Hf.
        apply in_map_iff in Hf as (w & <- & Hw). exists w. auto. }
  unfold createBuildHandler.
  destruct build as [b|]; [|apply Body; intros e []].
  destruct (state_eqb (State b) StateRunning); [|apply Body; intros e []].
  destruct (Stop W b) as [b1 [se|] t|b1 t] eqn:Es.
  - simpl. pose proof (Stop_trace _ _ _ _ Es) as Ht.
    split; [intros e H A|intros r f H Hf]; apply in_app_iff in H as [H|H].
    + left. now apply Ht.
    + apply In_WriteTo_acts in H. congruence.
    + destruct (Ht _ H). discriminate.
    + unfold WriteTo, response in H. simpl in H.
      destruct H as [H|[H|[]]]; [discriminate|]. injection H as <-. destruct Hf.
  - apply Body. apply (Stop_trace _ _ _ _ Es).
  - simpl. unfold Stop in Es. destruct (negb _); [discriminate|].
    destruct (cmd b) as [c|]; [|injection Es as <- <-; split; [intros e []|intros r f []]].
    destruct (cmdProcess c) as [p|]; [|discriminate].
    destruct (Process_Kill W p); discriminate.
Qed.

(** [createBuildHandler] stops a running build before it looks at the
    request. If the kill fails the handler answers 500 and nothing else
    happens: the slot keeps the running record. If the kill succeeds and the
    request is then refused (no body, a body that does not decode, no config,
    no files), the build stays stopped: the slot holds the old record in
    state Stopped, and no new record is made. *)
Theorem createBuildHandler_stops_first
    (b : Build) (c : Cmd) (p : Process) (body : decoded) :
  State b = StateRunning -> cmd b = Some c -> cmdProcess c = Some p ->
  (forall e, Process_Kill W p = Some e ->
     createBuildHandler W (Some b) body
     = HReturn (Some b)
         [Kill p; WriteHeader 500;
          WriteJSON (mkResponse 0 (Some ("Could not stop existing binary: " ++ e)%string)
                                None [] ""
                                ("Could not stop existing binary: " ++ e)%string)]) /\
  (Process_Kill W p = None ->
   match body with
   | Decoded req => Config req = "" \/ Files req = []
   | DecodeEOF | DecodeError _ => True
   end ->
   exists r,
     createBuildHandler W (Some b) body
     = HReturn (Some (set_State b StateStopped)) ([Kill p] ++ WriteTo r) /\
     Error r <> None).
Proof.
  intros Hs Hc Hp. unfold createBuildHandler, Stop.
  apply state_eqb_eq in Hs. rewrite Hs, Hc, Hp. simpl negb. cbv iota. split.
  - intros e Hk. rewrite Hk. reflexivity.
  - intros Hk Hb. rewrite Hk. unfold createBuild_from_body.
    destruct body as [req| |e].
    + destruct (Config req) as [|c0 cs] eqn:Ec.
      * simpl. eexists. split; [reflexivity|discriminate].
      * destruct Hb as [Hb|Hb]; [discriminate|]. rewrite Hb. simpl.
        eexists. split; [reflexivity|discriminate].
    + simpl. eexists. split; [reflexivity|discriminate].
    + eexists. split; [reflexivity|discriminate].
Qed.

Lemma checkAuth_passes (oauth : bool + error) :
  checkAuth W oauth = None <-> os_Getenv W "FLEXDEV_NOAUTH" <> "" \/ oauth = inl true.
Proof.
  unfold checkAuth.
  destruct (String.eqb_spec (os_Getenv W "FLEXDEV_NOAUTH") "") as [E|E]; simpl.
  - destruct oauth as [[|]|e]; split; auto; try discriminate;
      intros [H|H]; congruence.
  - split; auto.
Qed.

(** [adminHandler] lets a control request through to its handler only when
    the request did not come over plain HTTP, carries an Authorization header,
    and either the user is an admin or the server runs with FLEXDEV_NOAUTH
    set. Otherwise it answers 400, 401 or 403 with an error, does nothing
    else, and leaves the build slot as it is. With FLEXDEV_NOAUTH set the
    Authorization header must still be there, but any value passes. *)
Theorem adminHandler_gate (build : option Build) (oauth : bool + error) (r : AdminRequest) :
  let https_ok := X_Appengine_Https r = "" \/ X_Appengine_Https r = "on" in
  let authorised := os_Getenv W "FLEXDEV_NOAUTH" <> "" \/ oauth = inl true in
  (https_ok /\ Authorization r <> "" /\ authorised ->
     adminHandler W build oauth r
     = after [HeaderSet "X-FlexDev" Version] (handle W build (control r))) /\
  (~ (https_ok /\ Authorization r <> "" /\ authorised) ->
     exists code msg,
       adminHandler W build oauth r
       = HReturn build ([HeaderSet "X-FlexDev" Version]
                        ++ WriteTo (response code (Some msg) "")) /\
       (code = 400 \/ code = 401 \/ code = 403)).
Proof.
  cbv zeta. unfold adminHandler. cbv zeta.
  destruct (String.eqb_spec (X_Appengine_Https r) "") as [E1|E1];
    destruct (String.eqb_spec (X_Appengine_Https r) "on") as [E2|E2];
    simpl andb; cbv iota;
    try (split; [intros [[H|H] _]; congruence|];
         intros _; do 2 eexists; split; [reflexivity|]; auto).
  - rewrite E1 in E2. discriminate.
  - destruct (String.eqb_spec (Authorization r) "") as [Ea|Ea].
    + split; [intros (_ & H & _); congruence|].
      intros _; do 2 eexists; split; [reflexivity|]; auto.
    + destruct (checkAuth W oauth) as [e|] eqn:Ec.
      * split.
        -- intros (_ & _ & H). apply checkAuth_passes in H. congruence.
        -- intros _; do 2 eexists; split; [reflexivity|]; auto.
      * split; [reflexivity|]. intros N. destruct N. repeat split; auto.
        now apply checkAuth_passes.
  - destruct (String.eqb_spec (Authorization r) "") as [Ea|Ea].
    + split; [intros (_ & H & _); congruence|].
      intros _; do 2 eexists; split; [reflexivity|]; auto.
    + destruct (checkAuth W oauth) as [e|] eqn:Ec.
      * split.
        -- intros (_ & _ & H). apply checkAuth_passes in H. congruence.
        -- intros _; do 2 eexists; split; [reflexivity|]; auto.
      * split; [reflexivity|]. intros N. destruct N. repeat split; auto.
        now apply checkAuth_passes.
Qed.

End HandlersMore.

Section MoreExamples.

Import flexdev.
Import server.

Lemma Start_state_witness :
  exists b1 t,
    Start (testWorld ("", None) (emptyConfig, None) (inl []) None "1") (testBuild StateBuilt)
    = MReturn b1 None t /\
    State b1 = StateRunning.
Proof.
  do 2 eexists. split; [vm_compute; reflexivity|].
  refine (proj1 (proj1 (Start_state
            (testWorld ("", None) (emptyConfig, None) (inl []) None "1")
            (testBuild StateBuilt) _ None _ _) eq_refl)).
  vm_compute. reflexivity.
Defined.

Lemma Start_then_Stop_witness :
  exists b1 t p,
    Start (testWorld ("", None) (emptyConfig, None) (inl []) None "1") (testBuild StateBuilt)
    = MReturn b1 None t /\
    Stop (testWorld ("", None) (emptyConfig, None) (inl []) None "1") b1
    = MReturn (set_State b1 StateStopped) None [Kill p].
Proof.
  do 2 eexists.
  destruct (Start_then_Stop
              (testWorld ("", None) (emptyConfig, None) (inl []) None "1")
              (testBuild StateBuilt) _ _ ltac:(vm_compute; reflexivity))
    as (p & _ & Hk & _).
  exists p. split; [vm_compute; reflexivity|]. apply Hk. reflexivity.
Defined.

Lemma startBuildHandler_build_failure_witness :
  exists b',
    startBuildHandler
      (testWorld ("main.go:3: syntax error", Some "exit status 2")
                 (emptyConfig, None) (inl []) None "1")
      (Some (testBuild StateCreated))
    = HReturn (Some b')
        [Run (go_build_cmd
                (testWorld ("main.go:3: syntax error", Some "exit status 2")
                           (emptyConfig, None) (inl []) None "1")
                (testBuild StateBuilding));
         WriteHeader 500;
         WriteJSON (mkResponse 0 (Some "Build failed: exit status 2") None []
                               "main.go:3: syntax error" "Build failed: exit status 2")] /\
    State b' = StateBuilding.
Proof.
  destruct (startBuildHandler_build_failure
              (testWorld ("main.go:3: syntax error", Some "exit status 2")
                         (emptyConfig, None) (inl []) None "1")
              (testBuild StateCreated) "exit status 2" eq_refl)
    as (b' & H & Hs & Ho).
  exists b'. split; [|exact Hs]. rewrite H, Ho. reflexivity.
Defined.

Lemma startBuildHandler_running_witness :
  exists b' t,
    startBuildHandler (testWorld ("", None) (emptyConfig, None) (inl []) None "1")
                      (Some (testBuild StateCreated))
    = HReturn (Some b') t /\
    (State b' = StateRunning <-> In (WriteJSON (response 0 None "App is running.")) t).
Proof.
  exact (startBuildHandler_running
           (testWorld ("", None) (emptyConfig, None) (inl []) None "1")
           (testBuild StateCreated) emptyConfig eq_refl).
Defined.

Lemma createBuildHandler_touches_listed_witness :
  (forall e,
     In e (trace_of (createBuildHandler
                       (testWorld ("", None) (emptyConfig, None)
                                  (inl [dirEntry "."; fileEntry "old.go" "1"]) None "42")
                       None
                       (Decoded (mkCreateBuildRequest "runtime: go"
                                   [dirEntry "."; fileEntry "main.go" "2"])))) ->
     acts e = true ->
     (exists p, e = Kill p) \/ e = MkdirAll "/tmp/flexdev-server" \/
     exists o, In o [dirEntry "."; fileEntry "old.go" "1"] /\
               e = RemoveAll ("/tmp/flexdev-server/" ++ Path o)%string) /\
  (forall r f,
     In (WriteJSON r)
        (trace_of (createBuildHandler
                     (testWorld ("", None) (emptyConfig, None)
                                (inl [dirEntry "."; fileEntry "old.go" "1"]) None "42")
                     None
                     (Decoded (mkCreateBuildRequest "runtime: go"
                                 [dirEntry "."; fileEntry "main.go" "2"])))) ->
     In f (NeedFiles r) ->
     exists w, In w [dirEntry "."; fileEntry "main.go" "2"] /\ f = Path w).
Proof.
  exact (createBuildHandler_touches_listed
           (testWorld ("", None) (emptyConfig, None)
                      (inl [dirEntry "."; fileEntry "old.go" "1"]) None "42")
           None
           (mkCreateBuildRequest "runtime: go" [dirEntry "."; fileEntry "main.go" "2"])
           [dirEntry "."; fileEntry "old.go" "1"] eq_refl).
Defined.

Lemma createBuildHandler_stops_first_witness :
  exists r,
    createBuildHandler
      (testWorld ("", None) (emptyConfig, None) (inl []) None "1")
      (Some (set_cmd (testBuild StateRunning)
                     (Some (mkCmd ["./a.out"] "" [] (Some (mkProcess 7))))))
      DecodeEOF
    = HReturn (Some (set_cmd (testBuild StateStopped)
                             (Some (mkCmd ["./a.out"] "" [] (Some (mkProcess 7))))))
              ([Kill (mkProcess 7)] ++ WriteTo r) /\
    Error r <> None.
Proof.
  exact (proj2 (createBuildHandler_stops_first
                  (testWorld ("", None) (emptyConfig, None) (inl []) None "1")
                  (set_cmd (testBuild StateRunning)
                           (Some (mkCmd ["./a.out"] "" [] (Some (mkProcess 7)))))
                  (mkCmd ["./a.out"] "" [] (Some (mkProcess 7))) (mkProcess 7) DecodeEOF
                  eq_refl eq_refl eq_refl) eq_refl I).
Defined.

End MoreExamples.

(** ** More on the upload pool *)

Section PoolMore.

Import client.

Variable putFile : string -> option error.
Variable walkErr : option error.

Local Abbreviation step := (client.step putFile walkErr).
Local Abbreviation reachable := (client.reachable putFile walkErr).

Lemma transferred_paths_snoc (l : list occurrence) (o : occurrence) :
  transferred_paths (l ++ [o])
  = transferred_paths l ++ match o with Transferred _ path => [path] | _ => [] end.
Proof.
  induction l as [|x r IH]; simpl.
  - now destruct o.
  - rewrite IH. now destruct x.
Qed.

Lemma unskipped_paths_snoc (l : list occurrence) (o : occurrence) :
  unskipped_paths (l ++ [o])
  = unskipped_paths l ++ match o with Dequeued _ path false => [path] | _ => [] end.
Proof.
  induction l as [|x r IH]; simpl.
  - now destruct o as [? ? [|]| |].
  - rewrite IH. now destruct x as [? ? [|]| |].
Qed.

Lemma has_recorded_snoc (l : list occurrence) (o : occurrence) :
  has_recorded (l ++ [o])
  = has_recorded l || match o with Recorded _ _ => true | _ => false end.
Proof.
  unfold has_recorded. rewrite existsb_app. simpl. now rewrite orb_false_r.
Qed.

Lemma held_set_nth (i : nat) (w w' : worker) (ws : list worker) :
  nth_error ws i = Some w ->
  Permutation (flat_map held (set_nth i w' ws) ++ held w) (flat_map held ws ++ held w').
Proof.
  revert i. induction ws as [|y r IH]; intros [|j] H; simpl in *; try discriminate.
  - injection H as ->.
    rewrite (Permutation_app_comm (held w' ++ flat_map held r) (held w)).
    rewrite (Permutation_app_comm (held w ++ flat_map held r) (held w')).
    rewrite !app_assoc.
    apply Permutation_app_tail, Permutation_app_comm.
  - rewrite <- !app_assoc. apply Permutation_app_head. now apply IH.
Qed.

Lemma held_none (ws : list worker) : total in_flight ws = 0 -> flat_map held ws = [].
Proof.
  unfold total. induction ws as [|w r IH]; simpl; [reflexivity|].
  intros H. rewrite IH by lia. destruct w; simpl in *; try reflexivity; lia.
Qed.

Lemma recording_le (ws : list worker) : total recording ws <= total in_flight ws.
Proof.
  unfold total. induction ws as [|w r IH]; simpl; [lia|].
  destruct w; simpl; lia.
Qed.

Lemma nth_error_set_nth (i j : nat) (w w' : worker) (ws : list worker) :
  nth_error (set_nth i w ws) j = Some w' ->
  (j = i /\ w' = w) \/ nth_error ws j = Some w'.
Proof.
  revert i j. induction ws as [|y r IH]; intros [|i] [|j] H; simpl in *;
    try discriminate; auto.
  - injection H as <-. auto.
  - destruct (IH i j H) as [[-> ->]|H']; auto.
Qed.

(** The files received and not skipped are those passed to [putFile] and
    those the workers still hold. *)
Lemma pool_transfers (n : nat) (files : list string) (s : pool) :
  reachable n files s ->
  Permutation (unskipped_paths (log s))
              (transferred_paths (log s) ++ flat_map held (workers s)).
Proof.
  induction 1 as [|s l s' Hs IH Hstep].
  - simpl. assert (E : flat_map held (repeat AtCheck n) = [])
      by (induction n; simpl; auto). now rewrite E.
  - apply (step_cases putFile walkErr (fun s' =>
             Permutation (unskipped_paths (log s'))
                         (transferred_paths (log s') ++ flat_map held (workers s')))
             _ _ _ Hstep);
      simpl; intros;
      rewrite ?unskipped_paths_snoc, ?transferred_paths_snoc, ?app_nil_r;
      try match goal with
      | E : nth_error (workers s) ?i = Some ?w |- context [set_nth ?i ?w' (workers s)] =>
          pose proof (held_set_nth i w w' (workers s) E) as Hh; simpl in Hh;
          rewrite ?app_nil_r in Hh
      end;
      try (rewrite Hh; exact IH); try exact IH.
    + (* putFile *)
      assert (E : held (match putFile path with
                        | Some e => AtRecord path e | None => AtDone end) = [])
        by (destruct (putFile path); reflexivity).
      rewrite E, app_nil_r in Hh. rewrite IH, <- Hh, <- app_assoc.
      apply Permutation_app_head, Permutation_app_comm.
    + (* a send *)
      destruct skip; simpl in Hh; rewrite ?app_nil_r in *.
      * now rewrite Hh.
      * rewrite IH, Hh, app_assoc. reflexivity.
Qed.

(** A failed transfer is recorded, or about to be. *)
Lemma pool_failures (n : nat) (files : list string) (s : pool) :
  reachable n files s ->
  has_recorded (log s) = true \/ 0 < total recording (workers s) \/
  Forall (fun path => putFile path = None) (transferred_paths (log s)).
Proof.
  induction 1 as [|s l s' Hs IH Hstep].
  - right; right. constructor.
  - apply (step_cases putFile walkErr (fun s' =>
             has_recorded (log s') = true \/ 0 < total recording (workers s') \/
             Forall (fun path => putFile path = None) (transferred_paths (log s')))
             _ _ _ Hstep);
      simpl; intros; rewrite ?has_recorded_snoc, ?transferred_paths_snoc, ?app_nil_r;
      try match goal with
      | E : nth_error (workers s) ?i = Some ?w |- context [set_nth ?i ?w' (workers s)] =>
          pose proof (total_set_nth recording i w w' (workers s) E) as Hr; simpl in Hr
      end;
      rewrite ?orb_false_r, ?orb_true_r; auto.
    + destruct IH as [IH|[IH|IH]]; [auto|right; left; lia|auto].
    + destruct (putFile path) eqn:E; simpl in Hr; [right; left; lia|].
      destruct IH as [IH|[IH|IH]]; [auto|right; left; lia|].
      right; right. apply Forall_app. split; [exact IH|]. repeat constructor. exact E.
    + destruct IH as [IH|[IH|IH]]; [auto|right; left; lia|auto].
    + destruct IH as [IH|[IH|IH]]; [auto|right; left|auto].
      destruct skip; simpl in Hr; lia.
Qed.

(** An error that was recorded is the failure of a transfer. *)
Lemma pool_recorded (n : nat) (files : list string) (s : pool) :
  reachable n files s ->
  (forall i e, In (Recorded i e) (log s) ->
     exists path err, In path (transferred_paths (log s)) /\
                      putFile path = Some err /\ e = send_error path err) /\
  (forall i path err, nth_error (workers s) i = Some (AtRecord path err) ->
     In path (transferred_paths (log s)) /\ putFile path = Some err).
Proof.
  induction 1 as [|s l s' Hs [IHl IHw] Hstep].
  - split; [intros i e []|].
    intros i path err H. apply nth_error_In, repeat_spec in H. discriminate.
  - apply (step_cases putFile walkErr (fun s' =>
             (forall i e, In (Recorded i e) (log s') ->
                exists path err, In path (transferred_paths (log s')) /\
                                 putFile path = Some err /\ e = send_error path err) /\
             (forall i path err, nth_error (workers s') i = Some (AtRecord path err) ->
                In path (transferred_paths (log s')) /\ putFile path = Some err))
             _ _ _ Hstep);
      simpl; intros; rewrite ?transferred_paths_snoc, ?app_nil_r;
      (split;
       [intros j e0 Hin; try apply in_app_iff in Hin as [Hin|[Hin|[]]];
        try discriminate
       |intros j p0 err0 Hn; try (apply nth_error_set_nth in Hn as [[_ Hn]|Hn]);
        try discriminate]);
      try (now apply IHl with j); try (now apply IHw with j); auto.
    + destruct (IHl j e0 Hin) as (p1 & e1 & H1 & H2 & H3).
      exists p1, e1. rewrite in_app_iff. auto.
    + destruct (putFile path) eqn:E; [|discriminate]. injection Hn as -> ->.
      rewrite in_app_iff. simpl. auto.
    + destruct (IHw j p0 err0 Hn). rewrite in_app_iff. auto.
    + injection Hin as <- <-. destruct (IHw i path e H). now exists path, e.
    + destruct skip; discriminate.
Qed.

Lemma unskipped_all (l : list occurrence) :
  has_recorded l = false -> skips_follow_error false l = true ->
  unskipped_paths l = dequeued_paths l.
Proof.
  unfold has_recorded. induction l as [|x r IH]; simpl; [reflexivity|].
  destruct x as [i path [|]|i path|i e]; simpl; try discriminate; intros H1 H2;
    rewrite ?IH; auto.
Qed.

Lemma unskipped_dequeued (l : list occurrence) (path : string) :
  In path (unskipped_paths l) -> In path (dequeued_paths l).
Proof.
  induction l as [|x r IH]; simpl; [auto|].
  destruct x as [i p [|]|i p|i e]; simpl; intuition.
Qed.

Lemma last_recorded_In (l : list occurrence) (e : error) :
  last_recorded l = Some e -> exists i, In (Recorded i e) l.
Proof.
  induction l as [|x r IH]; simpl; [discriminate|].
  destruct x as [i p sk|i p|i e0]; intros H;
    try (destruct (IH H) as [j Hj]; exists j; now right).
  destruct (last_recorded r) as [e1|] eqn:E.
  - injection H as <-. destruct (IH eq_refl) as [j Hj]. exists j. now right.
  - injection H as <-. exists i. now left.
Qed.

(** What the return of the upload means. When [doDeploy] comes back from the
    wait with no error, every file that was pushed has been passed to
    [putFile] exactly once and every one of these transfers succeeded. When it
    comes back with an error, that error is the failure of the transfer of one
    of the files. *)
Theorem upload_result_sound (n : nat) (files : list string) (s : pool)
    (r : option error) :
  reachable n files s -> main s = Returned r -> walkErr = None ->
  (r = None ->
     Permutation (transferred_paths (log s)) files /\
     forall path, In path files -> putFile path = None) /\
  (forall e, r = Some e ->
     exists path err, In path files /\ putFile path = Some err /\
                      e = deploy_error (send_error path err)).
Proof.
  intros Hs Hm Hw.
  destruct (proj1 (pool_returned putFile walkErr _ _ _ _ Hs Hm) Hw) as [Hwg Hr].
  destruct (pool_counting putFile walkErr _ _ _ Hs) as [_ Hc].
  pose proof (pool_sendErr putFile walkErr _ _ _ Hs) as He.
  pose proof (pool_queue putFile walkErr _ _ _ Hs) as Hq.
  rewrite Hm in Hq. simpl in Hq. rewrite app_nil_r in Hq.
  pose proof (pool_transfers _ _ _ Hs) as Ht.
  assert (Hf : total in_flight (workers s) = 0) by lia.
  rewrite (held_none _ Hf), app_nil_r in Ht.
  split.
  - intros ->. destruct (sendErr s) as [e|] eqn:Ee; [discriminate|].
    assert (Hn : has_recorded (log s) = false)
      by (rewrite has_recorded_last, <- He; reflexivity).
    pose proof (proj1 (pool_skips putFile walkErr _ _ _ Hs)) as Hk.
    rewrite (unskipped_all _ Hn Hk), Hq in Ht.
    split; [now symmetry|].
    intros path Hp.
    destruct (pool_failures _ _ _ Hs) as [H|[H|H]].
    + congruence.
    + pose proof (recording_le (workers s)). lia.
    + rewrite Forall_forall in H. apply H.
      now apply (Permutation_in path Ht).
  - intros e ->. destruct (sendErr s) as [e0|] eqn:Ee; [|discriminate].
    injection Hr as ->. symmetry in He.
    destruct (last_recorded_In _ _ He) as [i Hi].
    destruct (proj1 (pool_recorded _ _ _ Hs) i e0 Hi) as (path & err & Hp & Hpf & ->).
    exists path, err. repeat split; auto.
    rewrite <- Hq. apply unskipped_dequeued.
    now apply (Permutation_in path (Permutation_sym Ht)).
Qed.

End PoolMore.

Section DiffApplies.

Import flexdev.

Lemma DirEntry_eq_dec (a b : DirEntry) : {a = b} + {a <> b}.
Proof.
  decide equality; [apply string_dec|apply bool_dec|apply string_dec].
Qed.

Lemma NoDup_paths_eq (l : DirList) (a b : DirEntry) :
  NoDup (map Path l) -> In a l -> In b l -> Path a = Path b -> a = b.
Proof.
  induction l as [|x l IH]; simpl; [intros _ []|].
  intros Hn Ha Hb E. apply NoDup_cons_iff in Hn as [Hx Hn].
  destruct Ha as [->|Ha], Hb as [->|Hb]; auto.
  - destruct Hx. rewrite E. now apply in_map.
  - destruct Hx. rewrite <- E. now apply in_map.
Qed.

(** What the diff is for: on snapshots of files only, with no path twice,
    removing the paths of the remove list from [ours] and then putting the
    entries of the add list (a put replaces the entry of its path) gives
    exactly [want]. *)
Theorem Diff_flat_applies (ours0 want0 : DirList) :
  flat ours0 -> flat want0 ->
  NoDup (map Path ours0) -> NoDup (map Path want0) ->
  forall e,
    In e want0 <->
    In e (fst (Diff ours0 want0)) \/
    (In e ours0 /\ ~ In e (snd (Diff ours0 want0)) /\
     has_path (fst (Diff ours0 want0)) (Path e) = false).
Proof.
  intros Fo Fw No Nw e.
  destruct (Diff_flat_members ours0 want0 Fo Fw No Nw) as [Ha Hr].
  split.
  - intros Hw. destruct (in_dec DirEntry_eq_dec e ours0) as [Ho|Ho].
    + right. split; [exact Ho|]. split.
      * intros H. apply Hr in H as [_ H]. now apply (H e Hw).
      * destruct (has_path _ (Path e)) eqn:E; [|reflexivity].
        apply existsb_exists in E as (a & Hin & Hp). apply String.eqb_eq in Hp.
        apply Ha in Hin as [Hin Hno].
        rewrite (NoDup_paths_eq want0 a e Nw Hin Hw Hp) in Hno. contradiction.
    + left. apply Ha. auto.
  - intros [H|(Ho & Hnr & Hp)]; [now apply Ha in H|].
    assert (Hex : exists w, In w want0 /\ Path w = Path e).
    { destruct (has_path want0 (Path e)) eqn:E.
      - apply existsb_exists in E as (w & Hw & Hq). apply String.eqb_eq in Hq. eauto.
      - destruct Hnr. apply Hr. split; [exact Ho|]. intros w Hw Hq.
        assert (C : has_path want0 (Path e) = true)
          by (apply existsb_exists; exists w; split; [exact Hw|now apply String.eqb_eq]).
        congruence. }
    destruct Hex as (w & Hw & Hq).
    destruct (in_dec DirEntry_eq_dec w ours0) as [Hwo|Hwo].
    + now rewrite <- (NoDup_paths_eq ours0 w e No Hwo Ho Hq).
    + assert (C : has_path (fst (Diff ours0 want0)) (Path e) = true).
      { apply existsb_exists. exists w. split; [apply Ha; auto|now apply String.eqb_eq]. }
      congruence.
Qed.

Lemma Diff_flat_applies_witness :
  In (fileEntry "b.go" "2") [fileEntry "b.go" "2"; fileEntry "a.go" "3"] <->
  In (fileEntry "b.go" "2")
     (fst (Diff [fileEntry "old.go" "0"; fileEntry "b.go" "1"]
                [fileEntry "b.go" "2"; fileEntry "a.go" "3"])) \/
  (In (fileEntry "b.go" "2") [fileEntry "old.go" "0"; fileEntry "b.go" "1"] /\
   ~ In (fileEntry "b.go" "2")
        (snd (Diff [fileEntry "old.go" "0"; fileEntry "b.go" "1"]
                   [fileEntry "b.go" "2"; fileEntry "a.go" "3"])) /\
   has_path (fst (Diff [fileEntry "old.go" "0"; fileEntry "b.go" "1"]
                       [fileEntry "b.go" "2"; fileEntry "a.go" "3"])) "b.go" = false).
Proof.
  apply (Diff_flat_applies [fileEntry "old.go" "0"; fileEntry "b.go" "1"]
                           [fileEntry "b.go" "2"; fileEntry "a.go" "3"]).
  - repeat constructor.
  - repeat constructor.
  - repeat constructor; simpl; intuition discriminate.
  - repeat constructor; simpl; intuition discriminate.
Defined.

(** Every entry of a listing comes from a call of the walk with file
    information, has the relative path [filepath.Rel] gave for it, and is a
    snapshot entry: a directory has no hash, a file has the hash [FileSHA1]
    gave for its path. This holds of the list also when it is returned with
    an error. Unless the listed directory is ".", the visited path starts
    with it. *)
Theorem ListDir_entries (Rel : string -> string -> string + string)
    (SHA : string -> string + string) (dirPath : string)
    (visits : list (string * option bool)) :
  Forall (fun e =>
            snapshot_entry e /\
            exists path,
              In (path, Some (IsDir e)) visits /\
              Rel dirPath path = inl (Path e) /\
              (IsDir e = false -> SHA path = inl (SHA1 e)) /\
              (dirPath = "." \/ HasPrefix path dirPath = true))
         (fst (ListDir Rel SHA dirPath visits)).
Proof.
  unfold ListDir.
  assert (G : forall vs d done,
            Forall (fun e =>
              snapshot_entry e /\
              exists path,
                In (path, Some (IsDir e)) (done ++ vs) /\
                Rel dirPath path = inl (Path e) /\
                (IsDir e = false -> SHA path = inl (SHA1 e)) /\
                (dirPath = "." \/ HasPrefix path dirPath = true)) d ->
            Forall (fun e =>
              snapshot_entry e /\
              exists path,
                In (path, Some (IsDir e)) (done ++ vs) /\
                Rel dirPath path = inl (Path e) /\
                (IsDir e = false -> SHA path = inl (SHA1 e)) /\
                (dirPath = "." \/ HasPrefix path dirPath = true))
              (fst (walk Rel SHA dirPath vs d))).
  { induction vs as [|[path fi] rest IH]; intros d done Hd; simpl; [exact Hd|].
    destruct (negb (dirPath =? ".")%string && negb (HasPrefix path dirPath)) eqn:Eg;
      [exact Hd|].
    destruct (Rel dirPath path) as [p|e] eqn:Er; [|exact Hd].
    destruct fi as [isDir|]; [|exact Hd].
    assert (Hpre : dirPath = "." \/ HasPrefix path dirPath = true).
    { apply andb_false_iff in Eg as [Eg|Eg]; apply negb_false_iff in Eg;
        [left; now apply String.eqb_eq|now right]. }
    replace (done ++ (path, Some isDir) :: rest)
      with ((done ++ [(path, Some isDir)]) ++ rest) in * by now rewrite <- app_assoc.
    destruct isDir; simpl.
    - apply IH. apply Forall_app. split; [exact Hd|]. repeat constructor.
      exists path. simpl. rewrite !in_app_iff. simpl.
      repeat split; auto. discriminate.
    - destruct (SHA path) as [sha|e] eqn:Es; [|exact Hd].
      apply IH. apply Forall_app. split; [exact Hd|]. repeat constructor.
      + intros H. discriminate H.
      + exists path. simpl. rewrite !in_app_iff. simpl. repeat split; auto. }
  apply (G visits [] []). constructor.
Qed.

End DiffApplies.

Section PoolMoreExamples.

Import client.

(** One file, transferred by worker 0 of the fifteen. *)
Lemma upload_result_sound_witness :
  exists s,
    client.run (fun _ => None) None
               [Worker 0; Main; Send 0; Worker 0; Worker 0; Main; Main]
               (start poolSize ["a.go"]) = Some s /\
    main s = Returned None /\
    Permutation (transferred_paths (log s)) ["a.go"].
Proof.
  eexists. split; [vm_compute; reflexivity|]. split; [reflexivity|].
  match goal with
  | |- Permutation (transferred_paths (log ?s)) _ =>
      refine (proj1 (proj1 (upload_result_sound (fun _ => None) None poolSize ["a.go"]
                              s None _ eq_refl eq_refl) eq_refl))
  end.
  apply run_reachable with
    (sched := [Worker 0; Main; Send 0; Worker 0; Worker 0; Main; Main])
    (s := start poolSize ["a.go"]); [constructor|].
  vm_compute. reflexivity.
Defined.

End PoolMoreExamples.

(** ** The build slot over many requests *)

Section SlotInvariant.

Import flexdev.
Import server.

Lemma Stop_sound (W : World) (b b1 : Build) (err : option error) (t : trace) :
  sound_record b -> Stop W b = MReturn b1 err t -> sound_record b1.
Proof.
  intros (Hc & Hf & Hr). unfold Stop.
  destruct (negb _); [intros [= <- <- <-]; repeat split; auto|].
  destruct (cmd b) as [c|] eqn:Ec; [|discriminate].
  destruct (cmdProcess c) as [p|] eqn:Ep.
  - destruct (Process_Kill W p) as [ke|]; intros [= <- <- <-];
      repeat split; simpl; auto; try discriminate. eauto.
  - intros [= <- <- <-]. repeat split; simpl; auto; discriminate.
Qed.

Lemma Stop_no_panic (W : World) (b b1 : Build) (t : trace) :
  sound_record b -> Stop W b <> MPanic b1 t.
Proof.
  intros (Hc & Hf & Hr). unfold Stop.
  destruct (state_eqb (State b) StateRunning) eqn:E; [|discriminate]. simpl.
  apply state_eqb_eq in E. destruct (Hr E) as (c & p & -> & ->).
  destruct (Process_Kill W p); discriminate.
Qed.

Lemma create_sound (W : World) (build : option Build) (body : decoded) :
  sound_slot build ->
  sound_slot (slot_of (createBuildHandler W build body)) /\
  forall b t, createBuildHandler W build body <> HPanic b t.
Proof.
  intros Hs.
  assert (Body : forall bd t,
            sound_slot bd ->
            sound_slot (slot_of (createBuild_from_body W bd t body)) /\
            forall b t', createBuild_from_body W bd t body <> HPanic b t').
  { intros bd t Hbd. unfold createBuild_from_body.
    destruct body as [req| |e]; try (split; [exact Hbd|discriminate]).
    destruct (Nat.eqb _ 0); [split; [exact Hbd|discriminate]|].
    destruct (Nat.eqb _ 0); [split; [exact Hbd|discriminate]|].
    unfold createBuild_from_config.
    destruct (yaml_Unmarshal W _) as [cfg yerr].
    destruct (os_MkdirAll W _) as [me|]; [split; [exact Hbd|discriminate]|].
    unfold filesNeeded. simpl dir.
    assert (New : forall l, sound_slot
              (Some (mkBuild (UnixNano W) StateCreated l [] (packageDir W) None "" ""
                             (Some cfg)))).
    { intros l b [= <-]. repeat split; simpl; discriminate. }
    destruct (ListDir W _) as [ours0|le]; [|split; [apply New|discriminate]].
    simpl clientFiles. destruct (Diff ours0 (Files req)) as [add_ del].
    destruct (removeFiles W _ _) as [tr [re|]]; split;
      try discriminate; apply New. }
  unfold createBuildHandler.
  destruct build as [b|]; [|now apply Body].
  destruct (state_eqb (State b) StateRunning); [|now apply Body].
  destruct (Stop W b) as [b1 [se|] t|b1 t] eqn:Es.
  - split; [|discriminate]. intros b' [= <-].
    apply (Stop_sound _ _ _ _ _ (Hs b eq_refl) Es).
  - apply Body. intros b' [= <-]. apply (Stop_sound _ _ _ _ _ (Hs b eq_refl) Es).
  - now destruct (Stop_no_panic W b b1 t (Hs b eq_refl)).
Qed.

Lemma Start_sound (W : World) (b : Build) :
  config_ b <> None -> State b <> StateFetching -> State b <> StateRunning ->
  match Start W b with
  | MReturn b1 _ _ => sound_record b1
  | MPanic _ _ => False
  end.
Proof.
  intros Hc Hf Hr. unfold Start.
  destruct (net_Listen W) as [a|e]; [|repeat split; auto; contradiction].
  cbv zeta. destruct (SplitHostPort W _) as [[h port]|e];
    [|repeat split; simpl; auto; contradiction].
  simpl config_. destruct (config_ b) as [cfg|] eqn:Ec; [|congruence].
  destruct (cmd_Start W _) as [p|e].
  - repeat split; simpl; try congruence. intros _. do 2 eexists. split; reflexivity.
  - repeat split; simpl; congruence.
Qed.

Lemma start_sound (W : World) (build : option Build) :
  sound_slot build ->
  sound_slot (slot_of (startBuildHandler W build)) /\
  forall b t, startBuildHandler W build = HPanic b t -> build = None.
Proof.
  intros Hs. unfold startBuildHandler.
  destruct build as [b|]; [|split; [exact Hs|reflexivity]].
  destruct (Hs b eq_refl) as (Hc & Hf & Hr).
  unfold GoBuild. cbv zeta. destruct (cmd_Run W _) as [out [e|]].
  - split; [|discriminate]. intros b' [= <-]. repeat split; simpl; auto; discriminate.
  - match goal with |- context [Start W ?b1] =>
      assert (H : match Start W b1 with
                  | MReturn b2 _ _ => sound_record b2
                  | MPanic _ _ => False
                  end)
        by (apply Start_sound; simpl; [exact Hc|discriminate|discriminate]);
      destruct (Start W b1) as [b2 [e|] t2|b2 t2]
    end; try contradiction; (split; [intros b' [= <-]; exact H|discriminate]).
Qed.

Lemma handle_sound (W : World) (build : option Build) (r : request) :
  sound_slot build ->
  sound_slot (slot_of (handle W build r)) /\
  forall b t, handle W build r = HPanic b t -> build = None.
Proof.
  intros Hs. destruct r as [body|pr| |]; simpl.
  - destruct (create_sound W build body Hs) as [H1 H2]. split; [exact H1|].
    intros b t H. now destruct (H2 b t).
  - pose proof (putFileHandler_slot W build pr) as E. rewrite E. split; [exact Hs|].
    unfold putFileHandler, bad_request. destruct (_ =? _)%string; [discriminate|].
    destruct build as [b|]; [|reflexivity].
    destruct (negb _); [discriminate|].
    destruct (_ =? _)%string; [discriminate|].
    destruct (_ =? _)%string; [discriminate|].
    destruct (put_body pr); [|discriminate].
    destruct (negb _); [discriminate|].
    destruct (os_MkdirAll W _); [discriminate|].
    destruct (ioutil_WriteFile W _ _); discriminate.
  - now apply start_sound.
  - unfold statusHandler. destruct build; (split; [exact Hs|discriminate]).
Qed.

Lemma serve_sound (reqs : list (World * request)) :
  forall build, sound_slot build -> sound_slot (serve reqs build).
Proof.
  induction reqs as [|[W r] rest IH]; intros build Hs; simpl; [exact Hs|].
  apply IH. now apply handle_sound.
Qed.

(** Whatever control requests a server has handled since it started, and
    whatever the outside world answered, the record in its slot has its
    config set, is never in state Fetching, and has a process whenever it is
    Running; so the next control request can only panic on an empty slot (a
    start or a put before the first create), and [Stop] never meets a
    running record without a process. *)
Theorem slot_stays_sound (reqs : list (World * request)) (W : World) (r : request) :
  sound_slot (serve reqs None) /\
  (forall b t, handle W (serve reqs None) r = HPanic b t ->
     serve reqs None = None /\ (r = StartBuild \/ exists pr, r = Put pr)) /\
  (forall b, serve reqs None = Some b -> State b = StateRunning ->
     exists p, Stop W b = MReturn (set_State b StateStopped) None [Kill p] \/
               exists e, Stop W b = MReturn b (Some e) [Kill p]).
Proof.
  assert (Hs : sound_slot (serve reqs None)) by (apply serve_sound; intros b [=]).
  split; [exact Hs|]. split.
  - intros b t H. pose proof (proj2 (handle_sound W _ r Hs) b t H) as E.
    split; [exact E|]. rewrite E in H.
    destruct r as [body|pr| |]; eauto.
    + destruct (create_sound W None body) as [_ N]; [intros b' [=]|]. now destruct (N b t).
    + discriminate.
  - intros b Eb Hr. destruct (Hs b Eb) as (_ & _ & Hp).
    destruct (Hp Hr) as (c & p & Hc & Hpp). exists p. unfold Stop.
    apply state_eqb_eq in Hr. rewrite Hr, Hc, Hpp. simpl.
    destruct (Process_Kill W p) as [e|]; [right; now exists e|now left].
Qed.

(** [startBuildHandler] kills nothing: started on a record that is Running,
    it compiles and starts a second process while the first one is left
    running, no longer referred to by the record. *)
Theorem startBuildHandler_never_kills (W : World) (build : option Build) :
  Forall (fun e => match e with Kill _ => False | _ => True end)
         (trace_of (startBuildHandler W build)).
Proof.
  unfold startBuildHandler. destruct build as [b|]; [|constructor].
  unfold GoBuild. cbv zeta. destruct (cmd_Run W _) as [out [e|]].
  - simpl. repeat constructor.
  - match goal with |- context [Start W ?b1] => set (b1' := b1) end.
    assert (St : forall b2 err t2, Start W b1' = MReturn b2 err t2 \/ Start W b1' = MPanic b2 t2 ->
              Forall (fun e => match e with Kill _ => False | _ => True end) t2).
    { intros b2 err t2. unfold Start.
      destruct (net_Listen W) as [a|e]; [|intros [[= <- <- <-]|[=]]; repeat constructor].
      cbv zeta. destruct (SplitHostPort W _) as [[h port]|e];
        [|intros [[= <- <- <-]|[=]]; repeat constructor].
      destruct (config_ _); [|intros [[=]|[= <- <-]]; repeat constructor].
      destruct (cmd_Start W _); intros [[= <- <- <-]|[=]]; repeat constructor. }
    destruct (Start W b1') as [b2 [e|] t2|b2 t2] eqn:Es; unfold trace_of;
      rewrite ?Forall_app; repeat split;
      try (apply (St b2 (Some e) t2); now left);
      try (apply (St b2 None t2); now left);
      try (apply (St b2 None t2); now right);
      simpl; repeat constructor.
Qed.

End SlotInvariant.

Section CreateAndTraffic.

Import flexdev.
Import server.

Variable W : World.

Lemma createBuild_from_body_slot (bd : option Build) (t : trace) (body : decoded) :
  slot_of (createBuild_from_body W bd t body) = bd \/
  exists b, slot_of (createBuild_from_body W bd t body) = Some b /\
            State b = StateCreated /\ ID b = UnixNano W.
Proof.
  unfold createBuild_from_body.
  destruct body as [req| |e]; auto.
  destruct (Nat.eqb _ 0); auto. destruct (Nat.eqb _ 0); auto.
  unfold createBuild_from_config.
  destruct (yaml_Unmarshal W _) as [cfg yerr].
  destruct (os_MkdirAll W _) as [me|]; auto.
  unfold filesNeeded. simpl dir.
  destruct (ListDir W _) as [ours0|le]; [|right; eexists; simpl; eauto].
  simpl clientFiles. destruct (Diff ours0 (Files req)) as [add_ del].
  destruct (removeFiles W _ _) as [tr [re|]]; right; eexists; simpl; eauto.
Qed.

(** After [createBuildHandler] nothing is running, unless the old build could
    not be stopped: if the slot then holds a Running record, it is the record
    that was there before, and killing its process failed (or it had none to
    kill). In every other case the record in the slot, if any, is not Running,
    which is when [proxyHandler] refuses traffic. *)
Theorem createBuildHandler_leaves_nothing_running
    (build : option Build) (body : decoded) (b' : Build) :
  slot_of (createBuildHandler W build body) = Some b' ->
  State b' = StateRunning ->
  build = Some b' /\
  (forall c p, cmd b' = Some c -> cmdProcess c = Some p -> Process_Kill W p <> None).
Proof.
  intros Hslot Hr.
  split; revert Hslot; unfold createBuildHandler;
    destruct build as [b|].
  - destruct (state_eqb (State b) StateRunning) eqn:E.
    + unfold Stop. rewrite E. simpl negb. cbv iota.
      destruct (cmd b) as [c|]; [|simpl; congruence].
      destruct (cmdProcess c) as [p|].
      * destruct (Process_Kill W p) as [ke|]; [simpl; congruence|].
        destruct (createBuild_from_body_slot (Some (set_State b StateStopped)) [Kill p] body)
          as [H|(x & H & Hx & _)]; rewrite H; intros [= <-]; simpl in *; congruence.
      * simpl. intros [= <-]. simpl in Hr. discriminate.
    + destruct (createBuild_from_body_slot (Some b) [] body)
        as [H|(x & H & Hx & _)]; rewrite H; intros [= <-]; [congruence|].
      congruence.
  - destruct (createBuild_from_body_slot None [] body)
      as [H|(x & H & Hx & _)]; rewrite H; intros [= <-]. congruence.
  - destruct (state_eqb (State b) StateRunning) eqn:E.
    + unfold Stop. rewrite E. simpl negb. cbv iota.
      destruct (cmd b) as [c|] eqn:Ec; [|simpl; intros [= <-]; congruence].
      destruct (cmdProcess c) as [p|] eqn:Ep.
      * destruct (Process_Kill W p) as [ke|] eqn:Ek.
        -- simpl. intros [= <-] c0 p0 Hc0 Hp0. congruence.
        -- destruct (createBuild_from_body_slot (Some (set_State b StateStopped)) [Kill p] body)
             as [H|(x & H & Hx & _)]; rewrite H; intros [= <-]; simpl in *; congruence.
      * simpl. intros [= <-]. simpl in Hr. discriminate.
    + destruct (createBuild_from_body_slot (Some b) [] body)
        as [H|(x & H & Hx & _)]; rewrite H; intros [= <-]; [|congruence].
      apply state_eqb_neq in E. contradiction.
  - destruct (createBuild_from_body_slot None [] body)
      as [H|(x & H & Hx & _)]; rewrite H; intros [= <-]. congruence.
Qed.

End CreateAndTraffic.

Section CreateAndTrafficExamples.

Import flexdev.
Import server.

(** A running build whose process cannot be killed, and a create request. *)
Lemma createBuildHandler_leaves_nothing_running_witness :
  Some (set_cmd (testBuild StateRunning)
                (Some (mkCmd ["./a.out"] "" [] (Some (mkProcess 7)))))
  = Some (set_cmd (testBuild StateRunning)
                  (Some (mkCmd ["./a.out"] "" [] (Some (mkProcess 7))))) /\
  (forall c p,
     cmd (set_cmd (testBuild StateRunning)
                  (Some (mkCmd ["./a.out"] "" [] (Some (mkProcess 7))))) = Some c ->
     cmdProcess c = Some p ->
     Process_Kill
       (testWorld ("", None) (emptyConfig, None) (inl []) (Some "operation not permitted") "1")
       p <> None).
Proof.
  apply (createBuildHandler_leaves_nothing_running
           (testWorld ("", None) (emptyConfig, None) (inl []) (Some "operation not permitted") "1")
           (Some (set_cmd (testBuild StateRunning)
                          (Some (mkCmd ["./a.out"] "" [] (Some (mkProcess 7))))))
           DecodeEOF
           (set_cmd (testBuild StateRunning)
                    (Some (mkCmd ["./a.out"] "" [] (Some (mkProcess 7))))));
    reflexivity.
Defined.

End CreateAndTrafficExamples.
